(** * dumbconf: the round-trip editing and synthesis engine

    A shallow embedding of [dumbconf/_roundtrip.py]: the formatting policy
    that turns a native value into a token stream ([_to_tokens] and the
    container renderer), the native-value projection ([_python_value]), the
    path-addressed edit algebra ([_key_index], [_get], [_modify_items],
    [_set], [_delete], [_set_key]) and the document proxy.

    Python exceptions are modelled by the [result] type; tuples and lists
    by [list]; Python integers by [Z]. *)

From Stdlib Require Import List ZArith String Ascii Bool Lia DecimalString.
Import ListNotations.

Local Open Scope string_scope.
Local Open Scope list_scope.
Local Open Scope Z_scope.

Set Implicit Arguments.
#[local] Set Warnings "-register-all".

(** ** Exceptions *)

(** The Python exception classes raised by the module (and by the tuple
    and list operations it uses). *)
Inductive pyexc_class : Type :=
| AssertionError
| TypeError
| IndexError
| AttributeError
| ParseError.

(** One constructor per place the code raises.

    - [KeyNotFound]: [raise AssertionError('TODO: KeyError(key)')] in
      [_key_index];
    - [NotIndexable]: [raise AssertionError('{!r}: not indexable')] in
      [_key_index];
    - [InvariantViolation]: [raise AssertionError('Unknown ast: ...')] in
      [_python_value], [raise AssertionError('Unexpected value ...')] in
      [_to_tokens] and the [assert self.indent >= 0] of
      [Settings.indented];
    - [CannotDeleteLastTopLevelItem]: the [TypeError] of [_delete_cb];
    - [NotAMap], [InvalidKeyType]: the two [TypeError]s of [_set_key_cb];
    - [EmptyChain]: the [TypeError] of [replace_key] on an empty chain;
    - [IndexOutOfRange]: [IndexError] of a tuple or list subscript;
    - [BadIndexType]: [TypeError] of a subscript that is not an integer;
    - [NoSuchAttribute]: [AttributeError] of reading a field the object
      does not have;
    - [ParseFailure]: the token stream is rejected by the parser. *)
Inductive exn : Type :=
| KeyNotFound
| NotIndexable
| InvariantViolation
| CannotDeleteLastTopLevelItem
| NotAMap
| InvalidKeyType
| EmptyChain
| IndexOutOfRange
| BadIndexType
| NoSuchAttribute
| ParseFailure.

Definition exc_class (e : exn) : pyexc_class :=
  match e with
  | KeyNotFound => AssertionError
  | NotIndexable => AssertionError
  | InvariantViolation => AssertionError
  | CannotDeleteLastTopLevelItem => TypeError
  | NotAMap => TypeError
  | InvalidKeyType => TypeError
  | EmptyChain => TypeError
  | IndexOutOfRange => IndexError
  | BadIndexType => TypeError
  | NoSuchAttribute => AttributeError
  | ParseFailure => ParseError
  end.

Inductive result (A : Type) : Type :=
| OK (a : A)
| Error (e : exn).

Arguments OK {A} a.
Arguments Error {A} e.

Definition bind {A B : Type} (m : result A) (f : A -> result B) : result B :=
  match m with
  | OK a => f a
  | Error e => Error e
  end.

Notation "x <- m ;; k" := (bind m (fun x => k))
  (at level 61, m at next level, right associativity).
Notation "' p <- m ;; k" := (bind m (fun x => let p := x in k))
  (at level 61, p pattern, m at next level, right associativity).

(** ** Native values *)

(** A Python float: not-a-number, an infinity, or the finite number
    [m * 2^e]. *)
Inductive pyfloat : Type :=
| FNaN
| FInf (negative : bool)
| FFinite (m e : Z).

(** [m1 * 2^e1 = m2 * 2^e2], compared exactly. *)
Definition dyadic_eqb (m1 e1 m2 e2 : Z) : bool :=
  let e := Z.min e1 e2 in
  (m1 * 2 ^ (e1 - e) =? m2 * 2 ^ (e2 - e)).

Definition float_eqb (f g : pyfloat) : bool :=
  match f, g with
  | FInf a, FInf b => Bool.eqb a b
  | FFinite m1 e1, FFinite m2 e2 => dyadic_eqb m1 e1 m2 e2
  | _, _ => false
  end.

Definition int_float_eqb (z : Z) (f : pyfloat) : bool :=
  match f with
  | FFinite m e => dyadic_eqb z 0 m e
  | _ => false
  end.

(** The atomic values: [str], [bool], [None], [int], [float]. *)
Inductive pyprim : Type :=
| PStr (s : string)
| PBool (b : bool)
| PNone
| PInt (z : Z)
| PFloat (f : pyfloat).

Definition Z_of_bool (b : bool) : Z := if b then 1 else 0.

(** Python's [==] on atomic values: [bool] is a subclass of [int], and
    numbers compare by value across [int] and [float]. *)
Definition prim_eqb (a b : pyprim) : bool :=
  match a, b with
  | PStr s, PStr t => String.eqb s t
  | PNone, PNone => true
  | PBool x, PBool y => Bool.eqb x y
  | PBool x, PInt z => Z_of_bool x =? z
  | PInt z, PBool y => z =? Z_of_bool y
  | PInt x, PInt y => x =? y
  | PBool x, PFloat f => int_float_eqb (Z_of_bool x) f
  | PInt x, PFloat f => int_float_eqb x f
  | PFloat f, PBool y => int_float_eqb (Z_of_bool y) f
  | PFloat f, PInt y => int_float_eqb y f
  | PFloat f, PFloat g => float_eqb f g
  | _, _ => false
  end.

(** Native values.  [VDict] keeps the entries in insertion order, as
    [dict.items()] and [collections.OrderedDict] do.  [VOther] stands for
    an object of any other type ([bytes], a [set], ...). *)
Inductive pyval : Type :=
| VPrim (p : pyprim)
| VList (l : list pyval)
| VTuple (l : list pyval)
| VDict (kvs : list (pyval * pyval))
| VOther.

(** [a == b] where [a] is atomic: a container never equals an atom. *)
Definition prim_eq_val (a : pyprim) (b : pyval) : bool :=
  match b with
  | VPrim q => prim_eqb a q
  | _ => false
  end.

(** ** Tokens and the tree *)

Inductive prim_kind : Type :=
| String_ | Bool_ | Null_ | Int_ | Float_ | BareWordKey.

(** A primitive node: it is a token and a tree node at once. *)
Record primitive : Type := mkPrim {
  pkind : prim_kind;
  pval : pyprim;
  psrc : string
}.

Inductive token : Type :=
| TPrim (p : primitive)
| Comma (src : string)
| Space (src : string)
| NL (src : string)
| Indent (src : string)
| Comment (src : string)
| Colon (src : string)
| MapStart (src : string)
| MapEnd (src : string)
| ListStart (src : string)
| ListEnd (src : string)
| EOF (src : string).

Definition tok_src (t : token) : string :=
  match t with
  | TPrim p => psrc p
  | Comma s | Space s | NL s | Indent s | Comment s | Colon s
  | MapStart s | MapEnd s | ListStart s | ListEnd s | EOF s => s
  end.

Inductive container_kind : Type := KList | KMap.

(** What a container holds besides its items: its own opening and closing
    tokens and the two flags the edit algebra reads. *)
Record container : Type := mkContainer {
  ckind : container_kind;
  chead : list token;
  ctail : list token;
  is_multiline : bool;
  is_top_level_style : bool
}.

(** An item of a container: a [MapItem] (with a key) or a [ListItem]
    (without); the [Doc] has the same [head], [val] and [tail] and is an
    item without a key.  This is what [_get] and [_modify_items] call
    [obj]. *)
Record item_of (A : Type) : Type := Item {
  head : list token;
  key : option primitive;
  inner : list token;
  val : A;
  tail : list token
}.

Inductive ast : Type :=
| Prim (p : primitive)
| Cont (c : container) (items : list (item_of ast)).

Abbreviation item := (item_of ast).

(** ** Settings *)

Record Settings : Type := mkSettings {
  indent : Z;
  bare_keys : bool;
  inline_small_containers : bool
}.

Definition indented (s : Settings) : result Settings :=
  if 0 <=? indent s
  then OK (mkSettings (indent s + 1) (bare_keys s) (inline_small_containers s))
  else Error InvariantViolation.

Definition Settings_DEFAULT : Settings := mkSettings (-1) true true.

(** ** The primitive codec

    [dumbconf._primitive] and the bare-word pattern of
    [dumbconf._tokenize] are collaborators of this module: the text of a
    primitive and the bare-word grammar are parameters. *)
Class Codec : Type := {
  String_dump : string -> string;
  Bool_dump : bool -> string;
  Null_dump : string;
  Int_dump : Z -> string;
  Float_dump : pyfloat -> string;
  BARE_WORD_FULL_MATCH : string -> bool
}.

(** ** The formatting policy and synthesizer *)

(** Python's [s * n] on a string: empty when [n <= 0]. *)
Fixpoint repeat_string (s : string) (n : nat) : string :=
  match n with
  | O => ""
  | S n' => String.append s (repeat_string s n')
  end.

Definition str_mul (s : string) (n : Z) : string := repeat_string s (Z.to_nat n).

Section ExtendEach.
Variables (A : Type) (f : A -> result (list token)).

(** [for item in l: ret.extend(f(item))], as the tokens appended. *)
Fixpoint extend_each (l : list A) : result (list token) :=
  match l with
  | [] => OK []
  | x :: xs =>
      t <- f x ;;
      r <- extend_each xs ;;
      OK (t ++ r)
  end.
End ExtendEach.

(** [ContainerSettings]: [V] is the type of the container value and [A]
    of what [to_iter] yields. *)
Record ContainerSettings (V A : Type) : Type := mkContainerSettings {
  start : token;
  end_ : token;
  item_func : A -> Settings -> result (list token);
  to_iter : V -> list A
}.

Section ContainerRenderer.
Variables V A : Type.

(** [not val] and [if val:] on a [dict], [list] or [tuple]: whether it
    is empty. *)
Definition falsy (cs : ContainerSettings V A) (v : V) : bool :=
  match to_iter cs v with
  | [] => true
  | _ :: _ => false
  end.

Definition _inline (v : V) (settings : Settings)
    (container_settings : ContainerSettings V A) : result (list token) :=
  body <-
    (if falsy container_settings v then OK []
     else
       match to_iter container_settings v with
       | [] => Error IndexOutOfRange
       | item0 :: items =>
           first <- item_func container_settings item0 settings ;;
           others <-
             extend_each
               (fun item =>
                  t <- item_func container_settings item settings ;;
                  OK (Comma "," :: Space " " :: t))
               items ;;
           OK (first ++ others)
       end) ;;
  OK ([start container_settings] ++ body ++ [end_ container_settings]).

Definition _multiline (v : V) (settings : Settings)
    (container_settings : ContainerSettings V A) : result (list token) :=
  body <-
    extend_each
      (fun item =>
         s1 <- indented settings ;;
         s2 <- indented settings ;;
         t <- item_func container_settings item s2 ;;
         OK ([Indent (str_mul "    " (indent s1))] ++ t
             ++ [Comma ","; NL (String "010" "")]))
      (to_iter container_settings v) ;;
  OK ([start container_settings; NL (String "010" "")] ++ body
      ++ (if 0 <? indent settings
          then [Indent (str_mul "    " (indent settings))] else [])
      ++ [end_ container_settings]).

Definition _container (v : V) (settings : Settings)
    (container_settings : ContainerSettings V A) : result (list token) :=
  if (indent settings <? 0)
     || falsy container_settings v
     || (inline_small_containers settings
         && (Z.of_nat (List.length (to_iter container_settings v)) <? 2))
  then _inline v settings container_settings
  else _multiline v settings container_settings.
End ContainerRenderer.

Section Synthesizer.
Context {codec : Codec}.

Definition newline : string := String "010" "".

Fixpoint _to_tokens (v : pyval) (settings : Settings)
    (as_key top_level_map : bool) {struct v} : result (list token) :=
  let top_level_map := top_level_map && (indent settings =? 0) in
  let map_item :=
    fun (kv : pyval * pyval) (s : Settings) =>
      let (k, x) := kv in
      kt <- _to_tokens k s true false ;;
      vt <- _to_tokens x s false false ;;
      OK (kt ++ [Colon ":"; Space " "] ++ vt) in
  match v with
  | VPrim (PStr s) =>
      if bare_keys settings && as_key && BARE_WORD_FULL_MATCH s
      then OK [TPrim (mkPrim BareWordKey (PStr s) s)]
      else OK [TPrim (mkPrim String_ (PStr s) (String_dump s))]
  | VPrim (PBool b) => OK [TPrim (mkPrim Bool_ (PBool b) (Bool_dump b))]
  | VPrim PNone => OK [TPrim (mkPrim Null_ PNone Null_dump)]
  | VPrim (PInt z) => OK [TPrim (mkPrim Int_ (PInt z) (Int_dump z))]
  | VPrim (PFloat f) => OK [TPrim (mkPrim Float_ (PFloat f) (Float_dump f))]
  | VDict kvs =>
      if negb (match kvs with [] => true | _ => false end) && top_level_map
      then
        extend_each
          (fun kv => t <- map_item kv settings ;; OK (t ++ [NL newline]))
          kvs
      else
        _container kvs settings
          (mkContainerSettings (MapStart "{") (MapEnd "}") map_item
             (fun m => m))
  | VList l | VTuple l =>
      _container l settings
        (mkContainerSettings (ListStart "[") (ListEnd "]")
           (fun x s => _to_tokens x s false false) (fun t => t))
  | VOther => Error InvariantViolation
  end.

Definition _map_item_tokens (kv : pyval * pyval) (settings : Settings)
    : result (list token) :=
  let (k, v) := kv in
  kt <- _to_tokens k settings true false ;;
  vt <- _to_tokens v settings false false ;;
  OK (kt ++ [Colon ":"; Space " "] ++ vt).

Definition map_container_settings
    : ContainerSettings (list (pyval * pyval)) (pyval * pyval) :=
  mkContainerSettings (MapStart "{") (MapEnd "}") _map_item_tokens
    (fun m => m).

Definition list_container_settings : ContainerSettings (list pyval) pyval :=
  mkContainerSettings (ListStart "[") (ListEnd "]")
    (fun x s => _to_tokens x s false false) (fun t => t).

Definition _map_tokens (v : list (pyval * pyval)) (settings : Settings) :=
  _container v settings map_container_settings.

Definition _list_tokens (v : list pyval) (settings : Settings) :=
  _container v settings list_container_settings.

Definition _top_level_map_tokens (dct : list (pyval * pyval))
    (settings : Settings) : result (list token) :=
  extend_each
    (fun kv => t <- _map_item_tokens kv settings ;; OK (t ++ [NL newline]))
    dct.

End Synthesizer.

(** ** Native-value projection *)

Section MapM.
Variables (A B : Type) (f : A -> result B).

(** A comprehension whose body may raise: the first exception wins. *)
Fixpoint mapM (l : list A) : result (list B) :=
  match l with
  | [] => OK []
  | x :: xs =>
      y <- f x ;;
      ys <- mapM xs ;;
      OK (y :: ys)
  end.
End MapM.

(** [d[k] = v] on an ordered dict held as its list of entries: an equal
    key keeps its place and takes the new value. *)
Fixpoint od_setitem (d : list (pyval * pyval)) (k : pyprim) (v : pyval)
    : list (pyval * pyval) :=
  match d with
  | [] => [(VPrim k, v)]
  | (k', v') :: d' =>
      if prim_eq_val k k' then (k', v) :: d'
      else (k', v') :: od_setitem d' k v
  end.

(** [collections.OrderedDict(pairs)]. *)
Definition OrderedDict (pairs : list (pyprim * pyval)) : list (pyval * pyval) :=
  fold_left (fun d kv => od_setitem d (fst kv) (snd kv)) pairs [].

(** [item.key] then [_python_value] of it: an item without a key has no
    such attribute. *)
Definition item_key_value (it : item) : result pyprim :=
  match key it with
  | Some p => OK (pval p)
  | None => Error NoSuchAttribute
  end.

Fixpoint _python_value (ast_obj : ast) : result pyval :=
  match ast_obj with
  | Prim p => OK (VPrim (pval p))
  | Cont c items =>
      match ckind c with
      | KList =>
          l <- mapM (fun it : item => _python_value (val it)) items ;;
          OK (VList l)
      | KMap =>
          pairs <-
            mapM
              (fun it : item =>
                 k <- item_key_value it ;;
                 v <- _python_value (val it) ;;
                 OK (k, v))
              items ;;
          OK (VDict (OrderedDict pairs))
      end
  end.

(** ** The token/grammar layer *)

Definition is_head_trivia (t : token) : bool :=
  match t with
  | Indent _ | Space _ | NL _ | Comment _ => true
  | _ => false
  end.

Definition is_inline_trivia (t : token) : bool :=
  match t with
  | Space _ | Comment _ => true
  | _ => false
  end.

Definition is_comma (t : token) : bool :=
  match t with Comma _ => true | _ => false end.

Definition is_nl (t : token) : bool :=
  match t with NL _ => true | _ => false end.

(** The longest prefix of tokens satisfying [p], and what follows. *)
Fixpoint span (p : token -> bool) (l : list token) : list token * list token :=
  match l with
  | [] => ([], [])
  | t :: r =>
      if p t then let (a, b) := span p r in (t :: a, b) else ([], l)
  end.

(** At most one token satisfying [p]. *)
Definition take_if (p : token -> bool) (l : list token)
    : list token * list token :=
  match l with
  | t :: r => if p t then ([t], r) else ([], l)
  | [] => ([], [])
  end.

(** The three places items are read: between brackets, between braces and
    in the braceless root mapping. *)
Inductive item_mode : Type := MList | MMap | MTop.

Definition is_end (m : item_mode) (t : token) : bool :=
  match m, t with
  | MList, ListEnd _ => true
  | MMap, MapEnd _ => true
  | MTop, EOF _ => true
  | _, _ => false
  end.

(** The trailing trivia of an item: its comma (not in the braceless form),
    blanks and a comment, and the newline that ends its line. *)
Definition parse_tail (m : item_mode) (toks : list token)
    : list token * list token :=
  let (c, r1) :=
    match m with
    | MTop => ([], toks)
    | _ => take_if is_comma toks
    end in
  let (s, r2) := span is_inline_trivia r1 in
  let (n, r3) := take_if is_nl r2 in
  (c ++ s ++ n, r3).

(** Whether an item with this tail may be followed by another one. *)
Definition separated (m : item_mode) (tl : list token) : bool :=
  match m with
  | MTop => existsb is_nl tl
  | _ => existsb is_comma tl
  end.

(** The key, colon and blanks before the value of a mapping entry. *)
Definition parse_key (m : item_mode) (toks : list token)
    : result (option primitive * list token * list token) :=
  match m with
  | MList => OK (None, [], toks)
  | _ =>
      match toks with
      | TPrim k :: Colon c :: r =>
          let (sp, r') := span is_inline_trivia r in
          OK (Some k, Colon c :: sp, r')
      | _ => Error ParseFailure
      end
  end.

Definition is_nil {A : Type} (l : list A) : bool :=
  match l with [] => true | _ => false end.

(** Modelled from the spec: the recursive-descent parser of
    [dumbconf._parse] is not part of this module.  It reads a token stream
    into the tree of the data model: a primitive token is a primitive
    node; a container is its opening token (and the newline after it when
    it is multiline), its items, and its closing indentation and token;
    an item is its leading trivia, its key and colon (in a mapping), its
    value and its trailing trivia.  Every item but the last carries its
    separator.  [parse_val] reads one value, [parse_items] the items of a
    container up to (not including) the closing token. *)
Fixpoint parse_val (fuel : nat) (toks : list token) {struct fuel}
    : result (ast * list token) :=
  match fuel with
  | O => Error ParseFailure
  | S f =>
      let container kind mode st rest :=
        let (nl, r1) := take_if is_nl rest in
        '(items, closing, r2) <- parse_items f mode r1 ;;
        match r2 with
        | e :: r3 =>
            OK (Cont (mkContainer kind (st :: nl) (closing ++ [e])
                        (negb (is_nil nl)) false) items, r3)
        | [] => Error ParseFailure
        end in
      match toks with
      | TPrim p :: rest => OK (Prim p, rest)
      | ListStart s :: rest => container KList MList (ListStart s) rest
      | MapStart s :: rest => container KMap MMap (MapStart s) rest
      | _ => Error ParseFailure
      end
  end
with parse_items (fuel : nat) (m : item_mode) (toks : list token)
    {struct fuel} : result (list item * list token * list token) :=
  match fuel with
  | O => Error ParseFailure
  | S f =>
      let (h, r) := span is_head_trivia toks in
      match r with
      | [] => Error ParseFailure
      | t :: _ =>
          if is_end m t then OK ([], h, r)
          else
            '(k, inn, r1) <- parse_key m r ;;
            '(v, r2) <- parse_val f r1 ;;
            let (tl, r3) := parse_tail m r2 in
            '(items, closing, rest) <- parse_items f m r3 ;;
            if separated m tl || is_nil items
            then OK (Item h k inn v tl :: items, closing, rest)
            else Error ParseFailure
      end
  end.

(** Modelled from the spec: [parse_from_tokens] of [dumbconf._parse].  A
    document is leading trivia, a root value and the end-of-input trivia;
    a root that starts with a key and a colon is the braceless top-level
    mapping, which is multiline and has no tokens of its own. *)
Definition parse_from_tokens (toks : list token) : result item :=
  let fuel := S (List.length toks) in
  let (h, r) := span is_head_trivia toks in
  match r with
  | TPrim _ :: Colon _ :: _ =>
      '(items, closing, r2) <- parse_items fuel MTop r ;;
      match r2 with
      | [EOF s] =>
          OK (Item h None []
                (Cont (mkContainer KMap [] [] true true) items)
                (closing ++ [EOF s]))
      | _ => Error ParseFailure
      end
  | _ =>
      '(v, r1) <- parse_val fuel r ;;
      let (t, r2) := span is_head_trivia r1 in
      match r2 with
      | [EOF s] => OK (Item h None [] v (t ++ [EOF s]))
      | _ => Error ParseFailure
      end
  end.

Definition src_of (toks : list token) : string :=
  fold_right (fun t s => String.append (tok_src t) s) "" toks.

(** Modelled from the spec: [unparse] of [dumbconf._parse] flattens a tree
    back to text by concatenating the stored source fragments in document
    order. *)
Fixpoint unparse_ast (a : ast) : string :=
  match a with
  | Prim p => psrc p
  | Cont c items =>
      String.append (src_of (chead c))
        (String.append
           (fold_right
              (fun (it : item) s =>
                 String.append (src_of (head it))
                   (String.append
                      (match key it with Some k => psrc k | None => "" end)
                      (String.append (src_of (inner it))
                         (String.append (unparse_ast (val it))
                            (String.append (src_of (tail it)) s)))))
              "" items)
           (src_of (ctail c)))
  end.

Definition unparse (doc : item) : string :=
  String.append (src_of (head doc))
    (String.append (unparse_ast (val doc)) (src_of (tail doc))).

Section Roundtrip.
Context {codec : Codec}.

(** [_to_ast]: run the parser on the synthesized tokens. *)
Definition _to_ast (v : pyval) (settings : Settings) (top_level_map : bool)
    : result ast :=
  tokens <- _to_tokens v settings false top_level_map ;;
  doc <- parse_from_tokens (tokens ++ [EOF ""]) ;;
  OK (val doc).

Definition dumps (v : pyval)
    (indented_ bare_keys_ top_level_map inline_small_containers_ : bool)
    : result string :=
  let settings :=
    mkSettings (if indented_ then 0 else -1) bare_keys_
      inline_small_containers_ in
  a <- _to_ast v settings top_level_map ;;
  OK (unparse_ast a).
End Roundtrip.

(** ** Subscripts of tuples and lists *)

(** An index must be an [int] (a [bool] is one). *)
Definition as_index (i : pyval) : result Z :=
  match i with
  | VPrim (PInt z) => OK z
  | VPrim (PBool b) => OK (Z_of_bool b)
  | _ => Error BadIndexType
  end.

(** The position a subscript [i] addresses in a sequence of length [n]:
    a negative index counts from the end. *)
Definition position (n : nat) (i : pyval) : result nat :=
  z <- as_index i ;;
  if (0 <=? z) && (z <? Z.of_nat n) then OK (Z.to_nat z)
  else if (- Z.of_nat n <=? z) && (z <? 0) then OK (Z.to_nat (Z.of_nat n + z))
  else Error IndexOutOfRange.

Fixpoint list_set {A : Type} (l : list A) (p : nat) (x : A) : list A :=
  match l, p with
  | [], _ => []
  | _ :: t, O => x :: t
  | h :: t, S p' => h :: list_set t p' x
  end.

Fixpoint list_del {A : Type} (l : list A) (p : nat) : list A :=
  match l, p with
  | [], _ => []
  | _ :: t, O => t
  | h :: t, S p' => h :: list_del t p'
  end.

(** [l[i]] *)
Definition getitem {A : Type} (l : list A) (i : pyval) : result A :=
  p <- position (List.length l) i ;;
  match nth_error l p with
  | Some x => OK x
  | None => Error IndexOutOfRange
  end.

(** [l[i] = x] *)
Definition setitem {A : Type} (l : list A) (i : pyval) (x : A)
    : result (list A) :=
  p <- position (List.length l) i ;;
  OK (list_set l p x).

(** [del l[i]] *)
Definition delitem {A : Type} (l : list A) (i : pyval) : result (list A) :=
  p <- position (List.length l) i ;;
  OK (list_del l p).

(** ** Structural edit algebra: navigation *)

(** [node.items] *)
Definition ast_items (node : ast) : result (list item) :=
  match node with
  | Cont _ items => OK items
  | Prim _ => Error NoSuchAttribute
  end.

(** [node._replace(items=tuple(new_items))] *)
Definition replace_items (node : ast) (new_items : list item) : result ast :=
  match node with
  | Cont c _ => OK (Cont c new_items)
  | Prim _ => Error NoSuchAttribute
  end.

(** The loop of [_key_index] over [enumerate(val.items)], from index [i]. *)
Fixpoint find_key (items : list item) (k : pyval) (i : Z) : result Z :=
  match items with
  | [] => Error KeyNotFound
  | it :: rest =>
      match key it with
      | None => Error NoSuchAttribute
      | Some p =>
          if prim_eq_val (pval p) k then OK i else find_key rest k (i + 1)
      end
  end.

Definition _key_index (v : ast) (k : pyval) : result pyval :=
  match v with
  | Cont c items =>
      match ckind c with
      | KMap => i <- find_key items k 0 ;; OK (VPrim (PInt i))
      | KList => OK k
      end
  | Prim _ => Error NotIndexable
  end.

Fixpoint _get (obj : item) (chain : list pyval) : result item :=
  match chain with
  | [] => OK obj
  | k :: rest =>
      i <- _key_index (val obj) k ;;
      items <- ast_items (val obj) ;;
      target <- getitem items i ;;
      match rest with
      | [] => OK target
      | _ :: _ => _get target rest
      end
  end.

(** ** Structural edit algebra: mutation *)

(** [obj._replace(val=...)] and the like. *)
Definition set_val (it : item) (v : ast) : item :=
  Item (head it) (key it) (inner it) v (tail it).
Definition set_tail (it : item) (t : list token) : item :=
  Item (head it) (key it) (inner it) (val it) t.
Definition set_head (it : item) (h : list token) : item :=
  Item h (key it) (inner it) (val it) (tail it).
Definition set_key (it : item) (k : primitive) : item :=
  Item (head it) (Some k) (inner it) (val it) (tail it).

Section Mutation.
Context {codec : Codec}.

Section ModifyItems.
Variable items_cb : item -> pyval -> result (list item).

Fixpoint _modify_items (obj : item) (chain : list pyval) : result item :=
  match chain with
  | [] => Error IndexOutOfRange
  | k :: rest =>
      i <- _key_index (val obj) k ;;
      new_items <-
        match rest with
        | [] => items_cb obj i
        | _ :: _ =>
            new_items <- ast_items (val obj) ;;
            target <- getitem new_items i ;;
            new_target <- _modify_items target rest ;;
            setitem new_items i new_target
        end ;;
      new_val <- replace_items (val obj) new_items ;;
      OK (set_val obj new_val)
  end.
End ModifyItems.

Definition _replace_val (obj : item) (new_value : pyval) : result item :=
  a <- _to_ast new_value Settings_DEFAULT false ;;
  OK (set_val obj a).

Definition _set_cb (v : pyval) (obj : item) (i : pyval)
    : result (list item) :=
  new_items <- ast_items (val obj) ;;
  old <- getitem new_items i ;;
  new <- _replace_val old v ;;
  setitem new_items i new.

Definition _set (obj : item) (chain : list pyval) (v : pyval) : result item :=
  match chain with
  | [] => _replace_val obj v
  | _ :: _ => _modify_items (_set_cb v) obj chain
  end.

(** [s.endswith('\n')] *)
Fixpoint endswith_nl (s : string) : bool :=
  match s with
  | EmptyString => false
  | String c EmptyString => Ascii.eqb c "010"
  | String _ s' => endswith_nl s'
  end.

(** [item.tail[-1].src.endswith('\n')] *)
Definition tail_ends_nl (it : item) : result bool :=
  t <- getitem (tail it) (VPrim (PInt (-1))) ;;
  OK (endswith_nl (tok_src t)).

(** [node.is_multiline], [node.is_top_level_style] *)
Definition node_flag (f : container -> bool) (node : ast) : result bool :=
  match node with
  | Cont c _ => OK (f c)
  | Prim _ => Error NoSuchAttribute
  end.

Definition _delete_cb (obj : item) (i : pyval) : result (list item) :=
  items <- ast_items (val obj) ;;
  orig_item <- getitem items i ;;
  new_items <- delitem items i ;;
  z <- as_index i ;;
  top <- node_flag is_top_level_style (val obj) ;;
  multiline <- node_flag is_multiline (val obj) ;;
  let n := Z.of_nat (List.length items) in
  if top && is_nil new_items then Error CannotDeleteLastTopLevelItem
  else if negb multiline && (n =? z + 1) then
    last <- getitem new_items (VPrim (PInt (-1))) ;;
    setitem new_items (VPrim (PInt (-1))) (set_tail last [])
  else
    rule3 <-
      (if multiline && (0 <=? z - 1) && is_nil (head orig_item)
       then tail_ends_nl orig_item else OK false) ;;
    if rule3 then
      prev <- getitem new_items (VPrim (PInt (z - 1))) ;;
      setitem new_items (VPrim (PInt (z - 1)))
        (set_tail prev (tail orig_item))
    else
      rule4 <-
        (if multiline && (z + 1 <? n) && negb (is_nil (head orig_item))
         then b <- tail_ends_nl orig_item ;; OK (negb b) else OK false) ;;
      if rule4 then
        next <- getitem new_items (VPrim (PInt z)) ;;
        setitem new_items (VPrim (PInt z)) (set_head next (head orig_item))
      else OK new_items.

Definition _delete (obj : item) (chain : list pyval) : result item :=
  _modify_items _delete_cb obj chain.

Definition _set_key_cb (new_value : pyval) (obj : item) (i : pyval)
    : result (list item) :=
  match val obj with
  | Cont c items0 =>
      match ckind c with
      | KList => Error NotAMap
      | KMap =>
          k <- _to_ast new_value Settings_DEFAULT false ;;
          match k with
          | Cont _ _ => Error InvalidKeyType
          | Prim p =>
              items <- ast_items (val obj) ;;
              old <- getitem items i ;;
              setitem items i (set_key old p)
          end
      end
  | Prim _ => Error NotAMap
  end.

Definition _set_key (obj : item) (chain : list pyval) (new_value : pyval)
    : result item :=
  _modify_items (_set_key_cb new_value) obj chain.

(** ** The document proxy

    An [AstProxyChain] is a chain and a reference to the [AstProxy],
    whose [_ast_obj] is the one mutable cell: an operation of the proxy
    takes the cell's content and returns its outcome and the new
    content.  An exception leaves the cell as it was. *)
Definition proxy_op (A : Type) : Type := item -> result A * item.

(** [self.root = e] where evaluating [e] may raise. *)
Definition assign_root (e : result item) : proxy_op unit :=
  fun root =>
    match e with
    | OK new_root => (OK tt, new_root)
    | Error x => (Error x, root)
    end.

Definition proxy_setitem (chain : list pyval) (k : pyval) (v : pyval)
    : proxy_op unit :=
  fun root => assign_root (_set root (chain ++ [k]) v) root.

Definition proxy_delitem (chain : list pyval) (k : pyval) : proxy_op unit :=
  fun root => assign_root (_delete root (chain ++ [k])) root.

Definition proxy_replace_key (chain : list pyval) (v : pyval)
    : proxy_op unit :=
  fun root =>
    if is_nil chain then (Error EmptyChain, root)
    else assign_root (_set_key root chain v) root.

Definition proxy_replace_value (chain : list pyval) (v : pyval)
    : proxy_op unit :=
  fun root => assign_root (_set root chain v) root.

Definition proxy_python_value (chain : list pyval) : proxy_op pyval :=
  fun root =>
    (it <- _get root chain ;; _python_value (val it), root).

Definition loads_roundtrip (toks : list token) : result item :=
  parse_from_tokens toks.

Definition dumps_roundtrip (root : item) : string := unparse root.
End Mutation.

(** ** A codec to run examples with

    Modelled from the spec: the primitive codec [dumbconf._primitive] and
    the bare-word pattern are not part of this module.  Integers are
    written in decimal, booleans and null as words, a string between
    quotes; a bare word is a letter or underscore followed by letters,
    digits, underscores and dashes. *)

Definition is_word_start (c : ascii) : bool :=
  let n := nat_of_ascii c in
  ((65 <=? n) && (n <=? 90) || (97 <=? n) && (n <=? 122) || (n =? 95))%nat.

Definition is_word_char (c : ascii) : bool :=
  let n := nat_of_ascii c in
  (is_word_start c || (48 <=? n) && (n <=? 57) || (n =? 45))%nat.

Fixpoint all_chars (p : ascii -> bool) (s : string) : bool :=
  match s with
  | EmptyString => true
  | String c s' => p c && all_chars p s'
  end.

Definition sample_bare_word (s : string) : bool :=
  match s with
  | EmptyString => false
  | String c s' => is_word_start c && all_chars is_word_char s'
  end.

#[export] Instance sample_codec : Codec := {|
  String_dump := fun s => String.append "'" (String.append s "'");
  Bool_dump := fun b => if b then "true" else "false";
  Null_dump := "null";
  Int_dump := fun z => NilZero.string_of_int (Z.to_int z);
  Float_dump := fun f =>
    match f with
    | FNaN => "nan"
    | FInf neg => if neg then "-inf" else "inf"
    | FFinite m e =>
        String.append (NilZero.string_of_int (Z.to_int m))
          (String.append "p" (NilZero.string_of_int (Z.to_int e)))
    end;
  BARE_WORD_FULL_MATCH := sample_bare_word
|}.


(** ** Sample values *)

Definition vint (z : Z) : pyval := VPrim (PInt z).
Definition vstr (s : string) : pyval := VPrim (PStr s).
Definition int_node (z : Z) : ast := Prim (mkPrim Int_ (PInt z) (Int_dump z)).
Definition word_key (s : string) : primitive := mkPrim BareWordKey (PStr s) s.
Definition list_item (h : list token) (v : ast) (t : list token) : item :=
  Item h None [] v t.
Definition map_item (h : list token) (k : primitive) (v : ast)
    (t : list token) : item :=
  Item h (Some k) [Colon ":"; Space " "] v t.
Definition doc_of (v : ast) : item := Item [] None [] v [EOF ""].

Definition idx (p : nat) : pyval := VPrim (PInt (Z.of_nat p)).

Definition braces : container :=
  mkContainer KMap [MapStart "{"] [MapEnd "}"] false false.

Definition top_level : container := mkContainer KMap [] [] true true.

(** The list written [[], newline, [    1, 2,], newline, []]: both items
    on one line; deleting index 1. *)
Definition one_line_of_two : list item :=
  [list_item [Indent "    "] (int_node 1) [Comma ","; Space " "];
   list_item [] (int_node 2) [Comma ","; NL newline]].

Definition multiline_brackets : container :=
  mkContainer KList [ListStart "["; NL newline] [ListEnd "]"] true false.

(** The list written [[], newline, [    1, 2,], newline, [    3,],
    newline, []]. *)
Definition three_on_two_lines : list item :=
  [list_item [Indent "    "] (int_node 1) [Comma ","; Space " "];
   list_item [] (int_node 2) [Comma ","; NL newline];
   list_item [Indent "    "] (int_node 3) [Comma ","; NL newline]].

(** The list written [[], newline, [        1,], newline, [    2, 3,],
    newline, []]: the first line is indented deeper. *)
Definition deep_first_line : list item :=
  [list_item [Indent "        "] (int_node 1) [Comma ","; NL newline];
   list_item [Indent "    "] (int_node 2) [Comma ","; Space " "];
   list_item [] (int_node 3) [Comma ","; NL newline]].

(** ** The container layouts, in the words of the specification *)

(** Inline exactly when [settings.indent < 0], or the container is empty,
    or [inline_small_containers] is set and it has fewer than 2 items. *)
Definition renders_inline (s : Settings) (n : nat) : bool :=
  (indent s <? 0) || (n =? 0)%nat
  || (inline_small_containers s && (n <? 2)%nat).

(** The rendered items separated by a comma and a space. *)
Fixpoint comma_separated (rendered : list (list token)) : list token :=
  match rendered with
  | [] => []
  | [x] => x
  | x :: rest => x ++ [Comma ","; Space " "] ++ comma_separated rest
  end.

(** [start], the items separated by a comma and a space, [end]: no
    trailing comma. *)
Definition inline_layout (start_ end_tok : token)
    (rendered : list (list token)) : list token :=
  [start_] ++ comma_separated rendered ++ [end_tok].

(** [n] space characters. *)
Fixpoint spaces (n : nat) : string :=
  match n with
  | O => EmptyString
  | S n' => String " " (spaces n')
  end.

(** [start], newline; for each item an indent of [4 * (indent + 1)]
    spaces, its tokens, a comma and a newline; a closing indent of
    [4 * indent] spaces when [indent > 0]; [end]. *)
Definition multiline_layout (s : Settings) (start_ end_tok : token)
    (rendered : list (list token)) : list token :=
  [start_; NL newline]
  ++ flat_map
       (fun toks =>
          [Indent (spaces (4 * Z.to_nat (indent s + 1)))] ++ toks
          ++ [Comma ","; NL newline])
       rendered
  ++ (if 0 <? indent s then [Indent (spaces (4 * Z.to_nat (indent s)))]
      else [])
  ++ [end_tok].

(** The settings one level deeper. *)
Definition deeper (s : Settings) : Settings :=
  mkSettings (indent s + 1) (bare_keys s) (inline_small_containers s).

(** The value [{"x": [1, 2, 3]}]. *)
Definition x_123 : pyval := VDict [(vstr "x", VList [vint 1; vint 2; vint 3])].

(** What an item holds apart from its trivia. *)
Definition item_content (it : item) : option primitive * ast :=
  (key it, val it).

Definition brackets : container :=
  mkContainer KList [ListStart "["] [ListEnd "]"] false false.

(** The list written [[1, 2]]. *)
Definition inline_pair : list item :=
  [list_item [] (int_node 1) [Comma ","; Space " "];
   list_item [] (int_node 2) []].

(** ** Positions in the tree

    [_get] and [_modify_items] address an item by a chain of keys and
    indices; the frame properties speak about the positions such a chain
    resolves to. *)

(** The position, among the items of [node], that the path segment [k]
    addresses: the index [_key_index] returns, as the subscript reads it. *)
Definition locate (node : ast) (k : pyval) : result nat :=
  i <- _key_index node k ;;
  items <- ast_items node ;;
  position (List.length items) i.

(** The positions a chain walks through, from the root. *)
Fixpoint resolve (obj : item) (chain : list pyval) : result (list nat) :=
  match chain with
  | [] => OK []
  | k :: rest =>
      p <- locate (val obj) k ;;
      items <- ast_items (val obj) ;;
      match nth_error items p with
      | Some target => ps <- resolve target rest ;; OK (p :: ps)
      | None => Error IndexOutOfRange
      end
  end.

(** The item at a sequence of positions. *)
Fixpoint item_at (obj : item) (ps : list nat) : option item :=
  match ps with
  | [] => Some obj
  | p :: ps' =>
      match val obj with
      | Cont _ items =>
          match nth_error items p with
          | Some target => item_at target ps'
          | None => None
          end
      | Prim _ => None
      end
  end.

(** The tree in which the item at [ps] is replaced by its image under
    [f], every container on the way being rebuilt around the one child
    that changed. *)
Fixpoint update_at (f : item -> item) (obj : item) (ps : list nat) : item :=
  match ps with
  | [] => f obj
  | p :: ps' =>
      match val obj with
      | Cont c items =>
          match nth_error items p with
          | Some target =>
              set_val obj (Cont c (list_set items p (update_at f target ps')))
          | None => obj
          end
      | Prim _ => obj
      end
  end.

(** The two sequences of positions part ways: neither is at or below the
    other. *)
Fixpoint diverge (ps qs : list nat) : bool :=
  match ps, qs with
  | p :: ps', q :: qs' => if (p =? q)%nat then diverge ps' qs' else true
  | _, _ => false
  end.

(** [qs] is strictly below [ps]: inside the subtree of the item at [ps]. *)
Fixpoint strictly_below (ps qs : list nat) : bool :=
  match ps, qs with
  | [], [] => false
  | [], _ :: _ => true
  | p :: ps', q :: qs' => (p =? q)%nat && strictly_below ps' qs'
  | _ :: _, [] => false
  end.

(** The native value at a path, as [python_value] of the proxy reads it. *)
Definition project_at (root : item) (chain : list pyval) : result pyval :=
  it <- _get root chain ;; _python_value (val it).

(** ** Sample documents *)

Definition int_tok (z : Z) : token := TPrim (mkPrim Int_ (PInt z) (Int_dump z)).
Definition word_tok (s : string) : token := TPrim (word_key s).

(** The tokens of the text [a: {b: 1, c: 2}] and a newline. *)
Definition nested_tokens : list token :=
  [word_tok "a"; Colon ":"; Space " "; MapStart "{";
   word_tok "b"; Colon ":"; Space " "; int_tok 1; Comma ","; Space " ";
   word_tok "c"; Colon ":"; Space " "; int_tok 2; MapEnd "}";
   NL newline; EOF ""].

(** The tokens of the two lines [a: 1] and [b: 2]. *)
Definition two_entries_tokens : list token :=
  [word_tok "a"; Colon ":"; Space " "; int_tok 1; NL newline;
   word_tok "b"; Colon ":"; Space " "; int_tok 2; NL newline; EOF ""].

(** The tokens of the line [a: [1, 2]]. *)
Definition list_entry_tokens : list token :=
  [word_tok "a"; Colon ":"; Space " "; ListStart "[";
   int_tok 1; Comma ","; Space " "; int_tok 2; ListEnd "]";
   NL newline; EOF ""].

(** The document a token stream parses to ([fallback] if it does not). *)
Definition parsed (toks : list token) (fallback : item) : item :=
  match parse_from_tokens toks with
  | OK doc => doc
  | Error _ => fallback
  end.

Definition nested_doc : item :=
  Eval vm_compute in parsed nested_tokens (doc_of (int_node 0)).
Definition two_entries_doc : item :=
  Eval vm_compute in parsed two_entries_tokens (doc_of (int_node 0)).
Definition list_entry_doc : item :=
  Eval vm_compute in parsed list_entry_tokens (doc_of (int_node 0)).

(** The outcome of an edit ([fallback] if it raises). *)
Definition outcome (r : result item) (fallback : item) : item :=
  match r with
  | OK x => x
  | Error _ => fallback
  end.

Definition nested_doc_b9 : item :=
  Eval vm_compute in
    outcome (_set nested_doc [vstr "a"; vstr "b"] (vint 9)) nested_doc.

(** The tokens of the text [[1, {a: 2}]]. *)
Definition mixed_list_tokens : list token :=
  [ListStart "["; int_tok 1; Comma ","; Space " "; MapStart "{";
   word_tok "a"; Colon ":"; Space " "; int_tok 2; MapEnd "}";
   ListEnd "]"; EOF ""].

Definition mixed_list_doc : item :=
  Eval vm_compute in parsed mixed_list_tokens (doc_of (int_node 0)).

Definition brace_pair : container :=
  mkContainer KMap [MapStart "{"] [MapEnd "}"] false false.

Definition mixed_list_rekeyed : item :=
  Eval vm_compute in
    outcome (_set_key mixed_list_doc [vint 1; vstr "a"] (vstr "z"))
      mixed_list_doc.


(** ** Native values that the configuration language can hold *)

Definition is_prim (v : pyval) : bool :=
  match v with VPrim _ => true | _ => false end.

(** Python's [==] between two keys, the first of them atomic. *)
Definition key_eqb (a b : pyval) : bool :=
  match a with
  | VPrim p => prim_eq_val p b
  | _ => false
  end.

(** No key equals a later one. *)
Fixpoint pairwise_distinct (ks : list pyval) : bool :=
  match ks with
  | [] => true
  | k :: rest =>
      forallb (fun k' => negb (key_eqb k k')) rest && pairwise_distinct rest
  end.

(** Built from strings, booleans, [None], integers, floats, lists, tuples
    and mappings whose keys are atomic and pairwise distinct. *)
Fixpoint native (v : pyval) : bool :=
  match v with
  | VPrim _ => true
  | VList l | VTuple l => forallb native l
  | VDict kvs =>
      forallb (fun kv : pyval * pyval => is_prim (fst kv) && native (snd kv))
        kvs
      && pairwise_distinct (map fst kvs)
  | VOther => false
  end.

(** The value up to the spelling of its sequences: a tuple is read back as
    a list. *)
Fixpoint plain (v : pyval) : pyval :=
  match v with
  | VPrim p => VPrim p
  | VList l | VTuple l => VList (map plain l)
  | VDict kvs =>
      VDict (map (fun kv : pyval * pyval => (fst kv, plain (snd kv))) kvs)
  | VOther => VOther
  end.

(** The mapping [{(): 0}], whose key is the empty tuple. *)
Definition tuple_keyed : pyval := VDict [(VTuple [], vint 0)].

(** ** Support for the round trip through the parser *)

(** An entry of a container as the synthesizer renders it and the parser
    reads it back: its tokens (key and colon included), and the key, colon
    and value node they parse to. *)
Record rendered : Type := mkRendered {
  r_toks : list token;
  r_key : option primitive;
  r_inner : list token;
  r_val : ast
}.

(** The part of [parse_items] that reads one entry: its key and value. *)
Definition parse_entry (fuel : nat) (m : item_mode) (toks : list token)
    : result (option primitive * list token * ast * list token) :=
  '(k, inn, r1) <- parse_key m toks ;;
  '(v, r2) <- parse_val fuel r1 ;;
  OK (k, inn, v, r2).

(** A token that can start an entry in mode [m]. *)
Definition starts_entry (m : item_mode) (t : token) : bool :=
  negb (is_head_trivia t) && negb (is_end m t) && negb (is_comma t).

Definition parses_as (m : item_mode) (r : rendered) : Prop :=
  (exists t ts, r_toks r = t :: ts /\ starts_entry m t = true)
  /\ forall fuel rest,
       (List.length (r_toks r) <= fuel)%nat ->
       parse_entry fuel m (r_toks r ++ rest)
       = OK (r_key r, r_inner r, r_val r, rest).

(** The tokens of a value standing alone: one primitive token, or a
    bracketed container. *)
Definition value_tokens (toks : list token) : Prop :=
  (exists p, toks = [TPrim p])
  \/ (exists s r, toks = ListStart s :: r)
  \/ (exists s r, toks = MapStart s :: r).

(** What the parser keeps of a rendered entry, apart from trivia. *)
Definition rendered_content (r : rendered) : option primitive * ast :=
  (r_key r, r_val r).

(** The atom a key holds. *)
Definition prim_of (v : pyval) : pyprim :=
  match v with
  | VPrim p => p
  | _ => PNone
  end.

(** Induction over native values, through the lists they nest. *)
Section PyvalInduction.
Variable P : pyval -> Prop.
Hypothesis P_prim : forall p, P (VPrim p).
Hypothesis P_list : forall l, Forall P l -> P (VList l).
Hypothesis P_tuple : forall l, Forall P l -> P (VTuple l).
Hypothesis P_dict :
  forall kvs, Forall (fun kv => P (fst kv) /\ P (snd kv)) kvs -> P (VDict kvs).
Hypothesis P_other : P VOther.

Fixpoint pyval_nested_ind (v : pyval) : P v :=
  match v with
  | VPrim p => P_prim p
  | VList l =>
      P_list
        ((fix all (l : list pyval) : Forall P l :=
            match l with
            | [] => Forall_nil P
            | x :: r => Forall_cons x (pyval_nested_ind x) (all r)
            end) l)
  | VTuple l =>
      P_tuple
        ((fix all (l : list pyval) : Forall P l :=
            match l with
            | [] => Forall_nil P
            | x :: r => Forall_cons x (pyval_nested_ind x) (all r)
            end) l)
  | VDict kvs =>
      P_dict
        ((fix all (kvs : list (pyval * pyval))
            : Forall (fun kv => P (fst kv) /\ P (snd kv)) kvs :=
            match kvs with
            | [] => Forall_nil _
            | kv :: r =>
                Forall_cons kv
                  (conj (pyval_nested_ind (fst kv)) (pyval_nested_ind (snd kv)))
                  (all r)
            end) kvs)
  | VOther => P_other
  end.
End PyvalInduction.

(** The two bracketed containers: the kind, the mode its items are read
    in, and its opening and closing tokens. *)
Definition bracketed (kind : container_kind) (m : item_mode)
    (st en : token) : Prop :=
  (kind = KList /\ m = MList /\ st = ListStart "[" /\ en = ListEnd "]")
  \/ (kind = KMap /\ m = MMap /\ st = MapStart "{" /\ en = MapEnd "}").

(** The items the parser builds from rendered entries, in each layout. *)
Definition inline_tail (rs : list rendered) : list token :=
  match rs with
  | [] => []
  | _ :: _ => [Comma ","; Space " "]
  end.

Fixpoint inline_items (rs : list rendered) : list item :=
  match rs with
  | [] => []
  | r :: rs' =>
      Item [] (r_key r) (r_inner r) (r_val r) (inline_tail rs')
      :: inline_items rs'
  end.

Definition multiline_items (ind : string) (rs : list rendered) : list item :=
  map (fun r =>
         Item [Indent ind] (r_key r) (r_inner r) (r_val r)
           [Comma ","; NL newline])
    rs.

Definition top_level_items (rs : list rendered) : list item :=
  map (fun r => Item [] (r_key r) (r_inner r) (r_val r) [NL newline]) rs.

(** The closing indentation of the multiline layout. *)
Definition closing_indent (s : Settings) : list token :=
  if 0 <? indent s then [Indent (spaces (4 * Z.to_nat (indent s)))] else [].

(** The property carried through the induction on a native value: under
    any settings its tokens are those of a value standing alone, and they
    are read back, before whatever follows and with fuel for their length,
    as a node that projects to the value. *)
Definition round_trips {codec : Codec} (v : pyval) : Prop :=
  forall s : Settings,
    exists toks a,
      _to_tokens v s false false = OK toks
      /\ value_tokens toks
      /\ (forall fuel rest,
            (List.length toks <= fuel)%nat ->
            parse_val fuel (toks ++ rest) = OK (a, rest))
      /\ _python_value a = OK (plain v).

(** The key and value of a rendered mapping entry, projected. *)
Definition rendered_pair (r : rendered) : result (pyprim * pyval) :=
  k <- match r_key r with
       | Some p => OK (pval p)
       | None => Error NoSuchAttribute
       end ;;
  v <- _python_value (r_val r) ;;
  OK (k, v).

(** The value [{"x": [1, (2, "two words")], "y": {}}]. *)
Definition sample_value : pyval :=
  VDict [(vstr "x", VList [vint 1; VTuple [vint 2; vstr "two words"]]);
         (vstr "y", VDict [])].

(** Position [p] holds the first item of [items] whose key equals [k]:
    every item before it carries a key that differs from [k]. *)
Definition first_match (items : list item) (k : pyval) (p : nat) : Prop :=
  (exists it q,
      nth_error items p = Some it /\ key it = Some q
      /\ prim_eq_val (pval q) k = true)
  /\ forall j, (j < p)%nat ->
       exists it' q',
         nth_error items j = Some it' /\ key it' = Some q'
         /\ prim_eq_val (pval q') k = false.

(** The mapping written [{a: 1, b: 2, a: 3}]: the key [a] twice. *)
Definition repeated_key_items : list item :=
  [map_item [] (word_key "a") (int_node 1) [Comma ","; Space " "];
   map_item [] (word_key "b") (int_node 2) [Comma ","; Space " "];
   map_item [] (word_key "a") (int_node 3) []].

(** The list written [[1, 2, 3]]. *)
Definition inline_triple : list item :=
  [list_item [] (int_node 1) [Comma ","; Space " "];
   list_item [] (int_node 2) [Comma ","; Space " "];
   list_item [] (int_node 3) []].

Definition list_entry_deleted : item :=
  Eval vm_compute in
    outcome (_delete list_entry_doc [vstr "a"; vint (-1)]) list_entry_doc.

(** ** Shapes of values and tokens *)


(** The tokens that lay a document out over lines. *)
Definition is_layout (t : token) : bool :=
  match t with
  | NL _ | Indent _ => true
  | _ => false
  end.

(** An indent token is a positive number of four-space units. *)
Definition indent_ok (t : token) : Prop :=
  match t with
  | Indent src => exists n, (1 <= n)%nat /\ src = spaces (4 * n)
  | _ => True
  end.

(** The value [[1, [2, 3], {"a": (4, 5)}]]. *)
Definition nested_value : pyval :=
  VList [vint 1; VList [vint 2; vint 3];
         VDict [(vstr "a", VTuple [vint 4; vint 5])]].

Definition nested_value_tokens : list token :=
  Eval vm_compute in
    match _to_tokens nested_value (mkSettings 0 true true) false true with
    | OK toks => toks
    | Error _ => []
    end.

Definition nested_value_inline_tokens : list token :=
  Eval vm_compute in
    match _to_tokens nested_value Settings_DEFAULT false false with
    | OK toks => toks
    | Error _ => []
    end.


(** The list written [[], newline, [    1,], newline, [    2,], newline,
    [    3,], newline, []]: one item per line. *)
Definition one_per_line : list item :=
  [list_item [Indent "    "] (int_node 1) [Comma ","; NL newline];
   list_item [Indent "    "] (int_node 2) [Comma ","; NL newline];
   list_item [Indent "    "] (int_node 3) [Comma ","; NL newline]].

(** * Properties *)

Unset Implicit Arguments.

(** ** Synthesis *)

(** The body of [_to_tokens], with the helpers under their names. *)
Lemma _to_tokens_eq {codec : Codec} (v : pyval) (settings : Settings) (as_key tlm : bool) :
  _to_tokens v settings as_key tlm =
  match v with
  | VPrim (PStr s) =>
      if bare_keys settings && as_key && BARE_WORD_FULL_MATCH s
      then OK [TPrim (mkPrim BareWordKey (PStr s) s)]
      else OK [TPrim (mkPrim String_ (PStr s) (String_dump s))]
  | VPrim (PBool b) => OK [TPrim (mkPrim Bool_ (PBool b) (Bool_dump b))]
  | VPrim PNone => OK [TPrim (mkPrim Null_ PNone Null_dump)]
  | VPrim (PInt z) => OK [TPrim (mkPrim Int_ (PInt z) (Int_dump z))]
  | VPrim (PFloat f) => OK [TPrim (mkPrim Float_ (PFloat f) (Float_dump f))]
  | VDict kvs =>
      if negb (match kvs with [] => true | _ => false end)
         && (tlm && (indent settings =? 0))
      then _top_level_map_tokens kvs settings
      else _map_tokens kvs settings
  | VList l | VTuple l => _list_tokens l settings
  | VOther => Error InvariantViolation
  end.
Proof. destruct v as [[ | | | | ] | | | | ]; reflexivity. Qed.

(** ** Results *)

Lemma bind_OK_inv {A B : Type} (m : result A) (f : A -> result B) (b : B) :
  bind m f = OK b -> exists a, m = OK a /\ f a = OK b.
Proof.
  destruct m as [a | e]; simpl; intros H; [eauto | discriminate].
Qed.

Ltac inv_bind H :=
  let x := fresh "x" in
  let Hx := fresh "Hx" in
  apply bind_OK_inv in H; destruct H as (x & Hx & H).

(** Case analysis on the condition at the head of [H]. *)
Ltac case_if H :=
  match type of H with
  | (if ?b then _ else _) = _ => destruct b eqn:?
  end.

(** ** Subscripts *)

Lemma position_nonneg (n p : nat) :
  (p < n)%nat -> position n (VPrim (PInt (Z.of_nat p))) = OK p.
Proof.
  intros Hp. unfold position; simpl.
  replace ((0 <=? Z.of_nat p) && (Z.of_nat p <? Z.of_nat n)) with true.
  - now rewrite Nat2Z.id.
  - symmetry. apply andb_true_iff; split; [apply Z.leb_le | apply Z.ltb_lt]; lia.
Qed.

Lemma position_negative (n : nat) (k : Z) :
  - Z.of_nat n <= k < 0 ->
  position n (VPrim (PInt k)) = OK (Z.to_nat (Z.of_nat n + k)).
Proof.
  intros Hk. unfold position; simpl.
  replace (k <? Z.of_nat n) with true by (symmetry; apply Z.ltb_lt; lia).
  replace (0 <=? k) with false by (symmetry; apply Z.leb_gt; lia).
  replace (- Z.of_nat n <=? k) with true by (symmetry; apply Z.leb_le; lia).
  replace (k <? 0) with true by (symmetry; apply Z.ltb_lt; lia).
  reflexivity.
Qed.

Lemma position_outside (n : nat) (k : Z) :
  k < - Z.of_nat n \/ Z.of_nat n <= k ->
  position n (VPrim (PInt k)) = Error IndexOutOfRange.
Proof.
  intros Hk. unfold position; simpl.
  destruct (Z.leb_spec 0 k), (Z.ltb_spec k (Z.of_nat n)),
    (Z.leb_spec (- Z.of_nat n) k), (Z.ltb_spec k 0); simpl; try reflexivity; lia.
Qed.

Lemma position_lt (n : nat) (i : pyval) (p : nat) :
  position n i = OK p -> (p < n)%nat.
Proof.
  unfold position. intros H. inv_bind H.
  destruct (Z.leb_spec 0 x), (Z.ltb_spec x (Z.of_nat n)),
    (Z.leb_spec (- Z.of_nat n) x), (Z.ltb_spec x 0); simpl in H;
    try discriminate; injection H as <-; lia.
Qed.

Lemma getitem_position {A : Type} (l : list A) (i : pyval) (p : nat) (x : A) :
  position (List.length l) i = OK p -> nth_error l p = Some x ->
  getitem l i = OK x.
Proof. intros Hp Hx. unfold getitem. rewrite Hp; simpl. now rewrite Hx. Qed.

Lemma getitem_inv {A : Type} (l : list A) (i : pyval) (x : A) :
  getitem l i = OK x ->
  exists p, position (List.length l) i = OK p /\ nth_error l p = Some x.
Proof.
  unfold getitem. intros H. inv_bind H. exists x0. split; [assumption |].
  destruct (nth_error l x0); [now injection H as -> | discriminate].
Qed.

Lemma list_del_length {A : Type} (l : list A) (p : nat) :
  (p < List.length l)%nat -> List.length (list_del l p) = pred (List.length l).
Proof.
  revert p; induction l as [| a l IH]; intros [| p] Hp; simpl in *; try lia.
  rewrite IH by lia. destruct l; simpl in *; lia.
Qed.

Lemma list_set_length {A : Type} (l : list A) (p : nat) (x : A) :
  List.length (list_set l p x) = List.length l.
Proof.
  revert p; induction l as [| a l IH]; intros [| p]; simpl; auto.
Qed.

Lemma nth_error_list_set_eq {A : Type} (l : list A) (p : nat) (x : A) :
  (p < List.length l)%nat -> nth_error (list_set l p x) p = Some x.
Proof.
  revert p; induction l as [| a l IH]; intros [| p] Hp; simpl in *;
    try lia; auto. apply IH; lia.
Qed.

Lemma nth_error_list_set_neq {A : Type} (l : list A) (p q : nat) (x : A) :
  p <> q -> nth_error (list_set l p x) q = nth_error l q.
Proof.
  revert p q; induction l as [| a l IH]; intros [| p] [| q] Hpq; simpl;
    try reflexivity; try congruence. apply IH; congruence.
Qed.

Lemma nth_error_list_del_lt {A : Type} (l : list A) (p q : nat) :
  (q < p)%nat -> nth_error (list_del l p) q = nth_error l q.
Proof.
  revert p q; induction l as [| a l IH]; intros [| p] [| q] Hpq; simpl;
    try reflexivity; try lia. apply IH; lia.
Qed.

Lemma nth_error_list_del_ge {A : Type} (l : list A) (p q : nat) :
  (p <= q)%nat -> nth_error (list_del l p) q = nth_error l (S q).
Proof.
  revert p q; induction l as [| a l IH]; intros [| p] [| q] Hpq; simpl;
    try reflexivity; try lia.
  apply IH; lia.
Qed.

(** ** Navigation errors *)

Lemma find_key_absent (items : list item) (k : pyval) (i : Z) :
  Forall (fun it : item =>
            exists p, key it = Some p /\ prim_eq_val (pval p) k = false) items ->
  find_key items k i = Error KeyNotFound.
Proof.
  intros H; revert i; induction H as [| it items (p & Hk & Hne) _ IH];
    intros i; simpl.
  - reflexivity.
  - rewrite Hk, Hne. apply IH.
Qed.

(** C7 (as amended).  In a Map node whose items' keys all differ (by
    [val]) from the key looked up, [_key_index] fails at its key-not-found
    raise; on a node that is neither a Map nor a List it fails at its
    not-indexable raise, and that exception has the class of the internal
    invariant violation ([AssertionError]), not a class of its own. *)
Theorem key_index_failures (c : container) (items : list item) (p : primitive)
    (k : pyval) :
  ckind c = KMap ->
  Forall (fun it : item =>
            exists q, key it = Some q /\ prim_eq_val (pval q) k = false) items ->
  _key_index (Cont c items) k = Error KeyNotFound
  /\ _key_index (Prim p) k = Error NotIndexable
  /\ exc_class NotIndexable = exc_class InvariantViolation.
Proof.
  intros Hc Hitems. repeat split.
  simpl. rewrite Hc. now rewrite (find_key_absent items k 0 Hitems).
Qed.

Lemma key_index_failures_witness :
  _key_index
    (Cont braces [map_item [] (word_key "a") (int_node 1) []]) (vstr "b")
  = Error KeyNotFound
  /\ _key_index (int_node 1) (vstr "b") = Error NotIndexable
  /\ exc_class NotIndexable = exc_class InvariantViolation.
Proof.
  apply (key_index_failures braces
           [map_item [] (word_key "a") (int_node 1) []]
           (mkPrim Int_ (PInt 1) (Int_dump 1)) (vstr "b")).
  - reflexivity.
  - constructor; [| constructor].
    exists (word_key "a"). split; reflexivity.
Defined.

(** C7 as stated fails on a primitive node: the not-indexable failure is
    an [AssertionError], the class of the internal invariant violation
    that synthesis raises on a value of an unexpected type. *)
Lemma key_index_class_counterexample :
  _key_index (int_node 1) (vstr "b") = Error NotIndexable
  /\ _to_tokens VOther Settings_DEFAULT false false = Error InvariantViolation
  /\ exc_class NotIndexable = AssertionError
  /\ exc_class InvariantViolation = AssertionError
  /\ ~ (exc_class NotIndexable <> exc_class InvariantViolation).
Proof.
  repeat split. intros H; apply H; reflexivity.
Qed.

(** ** Delete: the top-level guard *)

(** C5.  Deleting, through the proxy, the only entry of a root mapping in
    top-level style fails with the [TypeError] of [_delete_cb], and the
    root cell keeps its content. *)
Theorem delete_last_top_level_item (doc : item) (c : container) (it : item)
    (p : primitive) (k : pyval) :
  val doc = Cont c [it] ->
  ckind c = KMap ->
  is_top_level_style c = true ->
  key it = Some p ->
  prim_eq_val (pval p) k = true ->
  proxy_delitem [] k doc = (Error CannotDeleteLastTopLevelItem, doc)
  /\ exc_class CannotDeleteLastTopLevelItem = TypeError.
Proof.
  intros Hval Hc Htop Hkey Heq. split; [| reflexivity].
  unfold proxy_delitem, assign_root, _delete; simpl.
  rewrite Hval; simpl. rewrite Hc, Hkey, Heq; simpl.
  unfold _delete_cb. rewrite Hval; simpl. rewrite Htop. reflexivity.
Qed.

Lemma delete_last_top_level_item_witness :
  let it := map_item [] (word_key "a") (int_node 1) [NL newline] in
  let doc := doc_of (Cont top_level [it]) in
  proxy_delitem [] (vstr "a") doc = (Error CannotDeleteLastTopLevelItem, doc)
  /\ exc_class CannotDeleteLastTopLevelItem = TypeError.
Proof.
  intros it doc.
  apply (delete_last_top_level_item doc top_level it (word_key "a") (vstr "a"));
    reflexivity.
Defined.

(** ** Delete: the trivia fix-ups *)

Lemma nth_error_lt {A : Type} (l : list A) (p : nat) (x : A) :
  nth_error l p = Some x -> (p < List.length l)%nat.
Proof. intros H. apply nth_error_Some. congruence. Qed.

Lemma getitem_idx {A : Type} (l : list A) (p : nat) (x : A) :
  nth_error l p = Some x -> getitem l (idx p) = OK x.
Proof.
  intros H. apply getitem_position with (p := p); [| assumption].
  apply position_nonneg. eapply nth_error_lt; eassumption.
Qed.

Lemma setitem_idx {A : Type} (l : list A) (p : nat) (x : A) :
  (p < List.length l)%nat -> setitem l (idx p) x = OK (list_set l p x).
Proof.
  intros H. unfold setitem, idx. now rewrite position_nonneg.
Qed.

Lemma delitem_idx {A : Type} (l : list A) (p : nat) :
  (p < List.length l)%nat -> delitem l (idx p) = OK (list_del l p).
Proof.
  intros H. unfold delitem, idx. now rewrite position_nonneg.
Qed.

Lemma is_nil_false_length {A : Type} (l : list A) :
  (0 < List.length l)%nat -> is_nil l = false.
Proof. destruct l; simpl; [lia | reflexivity]. Qed.

(** [_delete_cb] looks at its index only through the integer it stands
    for. *)
Lemma delete_cb_as_index (obj : item) (i : pyval) (z : Z) :
  as_index i = OK z -> _delete_cb obj i = _delete_cb obj (VPrim (PInt z)).
Proof.
  intros H. unfold _delete_cb, getitem, delitem, position.
  rewrite H. reflexivity.
Qed.

(** C9.  Deleting the item at index [i >= 1] of a multiline container,
    when that item has an empty head and a tail ending in a newline, gives
    the items without it, in which the item before it has the removed
    item's tail as its whole tail: nothing of its own tail is kept. *)
Theorem delete_replaces_previous_tail (obj : item) (c : container)
    (items : list item) (i : nat) (orig prev : item) :
  val obj = Cont c items ->
  is_multiline c = true ->
  (1 <= i)%nat ->
  nth_error items i = Some orig ->
  nth_error items (i - 1) = Some prev ->
  head orig = [] ->
  tail_ends_nl orig = OK true ->
  exists new_items,
    _delete_cb obj (idx i) = OK new_items
    /\ new_items = list_set (list_del items i) (i - 1)
                     (set_tail prev (tail orig))
    /\ exists prev', nth_error new_items (i - 1) = Some prev'
                     /\ tail prev' = tail orig
                     /\ head prev' = head prev
                     /\ val prev' = val prev
                     /\ key prev' = key prev.
Proof.
  intros Hval Hml Hi Horig Hprev Hhead Hnl.
  pose proof (nth_error_lt _ _ _ Horig) as Hlt.
  assert (Hlen : List.length (list_del items i) = pred (List.length items))
    by (apply list_del_length; assumption).
  assert (Hprev' : nth_error (list_del items i) (i - 1) = Some prev)
    by (rewrite nth_error_list_del_lt by lia; assumption).
  eexists. split; [| split; [reflexivity |]].
  - unfold _delete_cb. rewrite Hval; simpl.
    rewrite (getitem_idx _ _ _ Horig); simpl.
    rewrite delitem_idx by assumption; simpl.
    rewrite Hml, Hhead, Hnl; simpl.
    rewrite is_nil_false_length by lia.
    rewrite andb_false_r.
    replace (0 <=? Z.of_nat i - 1) with true
      by (symmetry; apply Z.leb_le; lia).
    simpl.
    replace (Z.of_nat i - 1) with (Z.of_nat (i - 1)) by lia.
    fold (idx (i - 1)).
    rewrite (getitem_idx _ _ _ Hprev'); simpl.
    apply setitem_idx. lia.
  - exists (set_tail prev (tail orig)). split; [| repeat split].
    apply nth_error_list_set_eq. lia.
Qed.

Lemma delete_replaces_previous_tail_witness :
  exists new_items,
    _delete_cb (doc_of (Cont multiline_brackets one_line_of_two)) (idx 1)
    = OK new_items
    /\ new_items
       = list_set (list_del one_line_of_two 1) (1 - 1)
           (set_tail (list_item [Indent "    "] (int_node 1)
                        [Comma ","; Space " "])
              [Comma ","; NL newline])
    /\ exists prev', nth_error new_items (1 - 1) = Some prev'
         /\ tail prev' = [Comma ","; NL newline]
         /\ head prev' = [Indent "    "]
         /\ val prev' = int_node 1
         /\ key prev' = None.
Proof.
  apply (delete_replaces_previous_tail
           (doc_of (Cont multiline_brackets one_line_of_two))
           multiline_brackets one_line_of_two 1
           (list_item [] (int_node 2) [Comma ","; NL newline])
           (list_item [Indent "    "] (int_node 1) [Comma ","; Space " "]));
    try reflexivity; lia.
Defined.

(** C4 (as amended).  In a multiline container, for an item addressed by
    a non-negative index [k] (an [int] or a [bool] standing for the
    position [i]; every key of a Map is addressed so), when the first three
    fix-ups do not apply: if the removed item has a non-empty head, an item
    follows it, and the removed item's own tail does not end in a newline,
    the following item's head is replaced by the removed item's head; in
    every other case in which the callback returns, the items are the
    original ones without the removed item. *)
Theorem delete_moves_head_to_next (obj : item) (c : container)
    (items : list item) (k : pyval) (i : nat) (orig : item) :
  val obj = Cont c items ->
  is_multiline c = true ->
  as_index k = OK (Z.of_nat i) ->
  nth_error items i = Some orig ->
  (is_top_level_style c = true -> list_del items i <> []) ->
  ~ ((1 <= i)%nat /\ head orig = [] /\ tail_ends_nl orig = OK true) ->
  (forall next,
      head orig <> [] ->
      nth_error items (S i) = Some next ->
      tail_ends_nl orig = OK false ->
      _delete_cb obj k
      = OK (list_set (list_del items i) i (set_head next (head orig))))
  /\ (~ (head orig <> [] /\ (S i < List.length items)%nat
          /\ tail_ends_nl orig = OK false) ->
      forall new_items,
        _delete_cb obj k = OK new_items ->
        new_items = list_del items i).
Proof.
  intros Hval Hml Hk Horig Hr1 Hr3.
  rewrite (delete_cb_as_index obj k _ Hk). fold (idx i). clear Hk k.
  pose proof (nth_error_lt _ _ _ Horig) as Hlt.
  assert (Hcb : _delete_cb obj (idx i) =
    (if is_top_level_style c && is_nil (list_del items i)
     then Error CannotDeleteLastTopLevelItem
     else
       rule3 <- (if (0 <=? Z.of_nat i - 1) && is_nil (head orig)
                 then tail_ends_nl orig else OK false) ;;
       if rule3 then
         prev <- getitem (list_del items i) (VPrim (PInt (Z.of_nat i - 1))) ;;
         setitem (list_del items i) (VPrim (PInt (Z.of_nat i - 1)))
           (set_tail prev (tail orig))
       else
         rule4 <- (if (Z.of_nat i + 1 <? Z.of_nat (List.length items))
                      && negb (is_nil (head orig))
                   then b <- tail_ends_nl orig ;; OK (negb b) else OK false) ;;
         if rule4 then
           next <- getitem (list_del items i) (idx i) ;;
           setitem (list_del items i) (idx i) (set_head next (head orig))
         else OK (list_del items i))).
  { unfold _delete_cb. rewrite Hval; simpl.
    rewrite (getitem_idx _ _ _ Horig); simpl.
    rewrite delitem_idx by assumption; simpl.
    rewrite Hml; simpl. reflexivity. }
  assert (Hnot1 : is_top_level_style c && is_nil (list_del items i) = false).
  { destruct (is_top_level_style c); [| reflexivity].
    destruct (list_del items i); [now exfalso; apply Hr1 | reflexivity]. }
  rewrite Hcb, Hnot1. clear Hcb Hnot1. split.
  - intros next Hhead Hnext Hnl.
    pose proof (nth_error_lt _ _ _ Hnext) as Hlt'.
    assert (Hnil : is_nil (head orig) = false)
      by (destruct (head orig); [congruence | reflexivity]).
    rewrite Hnil, andb_false_r; simpl.
    replace (Z.of_nat i + 1 <? Z.of_nat (List.length items)) with true
      by (symmetry; apply Z.ltb_lt; lia).
    simpl. rewrite Hnl; simpl.
    assert (Hnext' : nth_error (list_del items i) i = Some next)
      by (rewrite nth_error_list_del_ge by lia; assumption).
    rewrite (getitem_idx _ _ _ Hnext'); simpl.
    apply setitem_idx. rewrite list_del_length by assumption. lia.
  - intros Hr4 new_items.
    destruct ((0 <=? Z.of_nat i - 1) && is_nil (head orig)) eqn:E3.
    + apply andb_true_iff in E3. destruct E3 as [E3a E3b].
      apply Z.leb_le in E3a.
      assert (Hh : head orig = [])
        by (destruct (head orig); [reflexivity | discriminate]).
      destruct (tail_ends_nl orig) as [[|] | e] eqn:Enl; simpl.
      * exfalso. apply Hr3. repeat split; [lia | assumption].
      * rewrite Hh; simpl. rewrite andb_false_r; simpl.
        intros H; now injection H.
      * discriminate.
    + simpl.
      destruct ((Z.of_nat i + 1 <? Z.of_nat (List.length items))
                && negb (is_nil (head orig))) eqn:E4.
      * apply andb_true_iff in E4. destruct E4 as [E4a E4b].
        apply Z.ltb_lt in E4a.
        assert (Hh : head orig <> [])
          by (destruct (head orig); [discriminate | congruence]).
        destruct (tail_ends_nl orig) as [[|] | e] eqn:Enl; simpl.
        -- intros H; now injection H.
        -- exfalso. apply Hr4. repeat split; [assumption | lia].
        -- discriminate.
      * simpl. intros H; now injection H.
Qed.

Lemma delete_moves_head_to_next_witness :
  _delete_cb (doc_of (Cont multiline_brackets three_on_two_lines)) (idx 0)
  = OK [list_item [Indent "    "] (int_node 2) [Comma ","; NL newline];
        list_item [Indent "    "] (int_node 3) [Comma ","; NL newline]].
Proof.
  refine (proj1
            (delete_moves_head_to_next
               (doc_of (Cont multiline_brackets three_on_two_lines))
               multiline_brackets three_on_two_lines (idx 0) 0
               (list_item [Indent "    "] (int_node 1) [Comma ","; Space " "])
               _ _ _ _ _ _)
            (list_item [] (int_node 2) [Comma ","; NL newline]) _ _ _);
    try reflexivity; try discriminate.
  intros (H & _); inversion H.
Defined.

(** C4 as stated fails: the removed item has a non-empty head, the first
    three fix-ups do not apply and the following item's tail does not end
    in a newline, yet the following item keeps its own head, because the
    removed item's tail ends in a newline. *)
Lemma delete_head_rule_counterexample :
  let orig :=
    list_item [Indent "        "] (int_node 1) [Comma ","; NL newline] in
  let next := list_item [Indent "    "] (int_node 2) [Comma ","; Space " "] in
  let third := list_item [] (int_node 3) [Comma ","; NL newline] in
  let obj := doc_of (Cont multiline_brackets deep_first_line) in
  deep_first_line = [orig; next; third]
  /\ is_multiline multiline_brackets = true
  /\ is_top_level_style multiline_brackets = false
  /\ head orig <> []
  /\ tail_ends_nl next = OK false
  /\ _delete_cb obj (idx 0) = OK [next; third]
  /\ [next; third] <> [set_head next (head orig); third].
Proof.
  repeat split; discriminate.
Qed.

(** ** The container renderer *)

Lemma extend_each_ext {A : Type} (f g : A -> result (list token))
    (l : list A) :
  (forall x, f x = g x) -> extend_each f l = extend_each g l.
Proof.
  intros Hfg. induction l as [| a l IH]; simpl; [reflexivity |].
  now rewrite Hfg, IH.
Qed.

Lemma extend_each_mapM {A : Type} (f : A -> result (list token))
    (w : list token -> list token) (l : list A) :
  extend_each (fun x => t <- f x ;; OK (w t)) l
  = (ys <- mapM f l ;; OK (flat_map w ys)).
Proof.
  induction l as [| a l IH]; simpl; [reflexivity |].
  destruct (f a) as [t | e]; simpl; [| reflexivity].
  rewrite IH. destruct (mapM f l); reflexivity.
Qed.

Lemma comma_separated_cons (y : list token) (ys : list (list token)) :
  comma_separated (y :: ys)
  = y ++ flat_map (fun t => Comma "," :: Space " " :: t) ys.
Proof.
  revert y; induction ys as [| z ys IH]; intros y.
  - simpl. now rewrite app_nil_r.
  - change (comma_separated (y :: z :: ys))
      with (y ++ [Comma ","; Space " "] ++ comma_separated (z :: ys)).
    rewrite IH. reflexivity.
Qed.

Lemma repeat_four_spaces (n : nat) : repeat_string "    " n = spaces (4 * n).
Proof.
  induction n as [| n IH]; [reflexivity |].
  replace (4 * S n)%nat with (S (S (S (S (4 * n))))) by lia.
  simpl repeat_string. rewrite IH. reflexivity.
Qed.

Lemma str_mul_spaces (k : Z) : str_mul "    " k = spaces (4 * Z.to_nat k).
Proof. unfold str_mul. apply repeat_four_spaces. Qed.

(** [_container] against the decision rule and the two layouts. *)
Lemma container_unfold {V A : Type} (v : V) (s : Settings)
    (cs : ContainerSettings V A) :
  _container v s cs =
  if renders_inline s (List.length (to_iter cs v))
  then
    rendered <- mapM (fun x => item_func cs x s) (to_iter cs v) ;;
    OK (inline_layout (start cs) (end_ cs) rendered)
  else
    rendered <- mapM (fun x => item_func cs x (deeper s)) (to_iter cs v) ;;
    OK (multiline_layout s (start cs) (end_ cs) rendered).
Proof.
  unfold _container, renders_inline, falsy.
  replace (Z.of_nat (List.length (to_iter cs v)) <? 2)
    with (List.length (to_iter cs v) <? 2)%nat
    by (destruct (Nat.ltb_spec (List.length (to_iter cs v)) 2),
          (Z.ltb_spec (Z.of_nat (List.length (to_iter cs v))) 2);
        try reflexivity; lia).
  replace (match to_iter cs v with [] => true | _ :: _ => false end)
    with (List.length (to_iter cs v) =? 0)%nat
    by (destruct (to_iter cs v); reflexivity).
  destruct (Z.ltb_spec (indent s) 0) as [Hneg | Hpos]; simpl orb; cbv iota.
  2: destruct ((List.length (to_iter cs v) =? 0)%nat
               || inline_small_containers s
                  && (List.length (to_iter cs v) <? 2)%nat); cbv iota.
  3: {
    (* multiline *)
    unfold _multiline, multiline_layout, indented.
    replace (0 <=? indent s) with true by (symmetry; apply Z.leb_le; lia).
    cbn [bind]. fold (deeper s).
    rewrite (extend_each_mapM (fun x => item_func cs x (deeper s))
               (fun t => [Indent (str_mul "    " (indent (deeper s)))] ++ t
                         ++ [Comma ","; NL newline])).
    destruct (mapM (fun x => item_func cs x (deeper s)) (to_iter cs v))
      as [ys | e]; cbn [bind]; [| reflexivity].
    rewrite !str_mul_spaces. reflexivity. }
  all: unfold _inline, inline_layout, falsy;
    destruct (to_iter cs v) as [| x xs]; [reflexivity |];
    cbv iota; simpl mapM;
    destruct (item_func cs x s) as [y | e]; cbn [bind]; [| reflexivity];
    rewrite (extend_each_mapM (fun x => item_func cs x s)
               (fun t => Comma "," :: Space " " :: t));
    destruct (mapM (fun x => item_func cs x s) xs) as [ys | e]; cbn [bind];
      [| reflexivity];
    rewrite comma_separated_cons; reflexivity.
Qed.

(** C6.  The container renderer renders inline exactly when
    [settings.indent < 0], or the container is empty, or
    [inline_small_containers] is set and it has fewer than 2 items; the
    inline output is the inline layout of the items rendered at the same
    settings, and otherwise the output is the multiline layout of the items
    rendered one level deeper. *)
Theorem container_layout {V A : Type} (v : V) (s : Settings)
    (cs : ContainerSettings V A) :
  _container v s cs =
  if renders_inline s (List.length (to_iter cs v))
  then
    rendered <- mapM (fun x => item_func cs x s) (to_iter cs v) ;;
    OK (inline_layout (start cs) (end_ cs) rendered)
  else
    rendered <- mapM (fun x => item_func cs x (deeper s)) (to_iter cs v) ;;
    OK (multiline_layout s (start cs) (end_ cs) rendered).
Proof. apply container_unfold. Qed.


(** ** One-shot encoding *)

(** C1 (as amended).  With all default settings, [dumps] of
    [{"x": [1, 2, 3]}] is the bare key followed by the list in multiline
    form, one item per line indented by four spaces, each followed by a
    comma: a list of three items is not small. *)
Theorem dumps_x_123 {codec : Codec} :
  BARE_WORD_FULL_MATCH "x" = true ->
  Int_dump 1 = "1" -> Int_dump 2 = "2" -> Int_dump 3 = "3" ->
  dumps x_123 true true true true
  = OK (String.append "x: ["
          (String.append newline
             (String.append "    1,"
                (String.append newline
                   (String.append "    2,"
                      (String.append newline
                         (String.append "    3,"
                            (String.append newline
                               (String.append "]" newline))))))))).
Proof.
  intros Hx H1 H2 H3.
  unfold dumps, _to_ast, x_123, vstr, vint. cbn.
  rewrite Hx, H1, H2, H3. reflexivity.
Qed.

Lemma dumps_x_123_witness :
  dumps (codec := sample_codec) x_123 true true true true
  = OK (String.append "x: ["
          (String.append newline
             (String.append "    1,"
                (String.append newline
                   (String.append "    2,"
                      (String.append newline
                         (String.append "    3,"
                            (String.append newline
                               (String.append "]" newline))))))))).
Proof.
  apply (dumps_x_123 (codec := sample_codec)); reflexivity.
Defined.

(** C1 as stated fails: the text is not the one-line form. *)
Lemma dumps_x_123_counterexample :
  dumps (codec := sample_codec) x_123 true true true true
  <> OK (String.append "x: [1, 2, 3]" newline).
Proof.
  vm_compute. discriminate.
Qed.

(** ** Negative indices *)

Lemma setitem_content (l : list item) (i : pyval) (x y : item)
    (l' : list item) :
  getitem l i = OK x ->
  item_content y = item_content x ->
  setitem l i y = OK l' ->
  map item_content l' = map item_content l.
Proof.
  intros Hget Hc Hset.
  apply getitem_inv in Hget. destruct Hget as (p & Hp & Hx).
  unfold setitem in Hset. rewrite Hp in Hset. simpl in Hset.
  injection Hset as <-. clear Hp.
  revert p Hx; induction l as [| a l IH]; intros [| p] Hx; simpl in *;
    try discriminate.
  - injection Hx as ->. now rewrite Hc.
  - f_equal. now apply IH.
Qed.

(** Whatever fix-up applies, [_delete_cb] returns the items without the
    addressed one, up to the trivia of the others. *)
Lemma delete_cb_content (obj : item) (i : pyval) (new_items : list item) :
  _delete_cb obj i = OK new_items ->
  exists c items p,
    val obj = Cont c items
    /\ position (List.length items) i = OK p
    /\ map item_content new_items = map item_content (list_del items p).
Proof.
  unfold _delete_cb. intros H.
  destruct (val obj) as [q | c items] eqn:Hval; [discriminate |].
  cbn [bind ast_items node_flag] in H. exists c, items.
  inv_bind H. rename x into orig.
  apply getitem_inv in Hx. destruct Hx as (p & Hp & Horig).
  exists p. split; [reflexivity | split; [assumption |]].
  unfold delitem in H. rewrite Hp in H. cbn [bind] in H.
  inv_bind H. rename x into z. clear Hx.
  case_if H; [discriminate H |].
  case_if H.
  { inv_bind H. eapply setitem_content; [eassumption | | eassumption]; reflexivity. }
  inv_bind H. destruct x.
  { inv_bind H. eapply setitem_content; [eassumption | | eassumption]; reflexivity. }
  inv_bind H. destruct x.
  { inv_bind H. eapply setitem_content; [eassumption | | eassumption]; reflexivity. }
  now injection H as <-.
Qed.

(** X20.  In a List node of length [n], an index [k] with [-n <= k < 0]
    addresses the item at position [n + k]: [_get] returns it, and [_set]
    replaces the value of that item and nothing else, whenever the new
    value synthesizes. *)
Theorem negative_index_get_set {codec : Codec} (obj : item)
    (c : container) (items : list item) (k : Z) (v : pyval) :
  val obj = Cont c items ->
  ckind c = KList ->
  - Z.of_nat (List.length items) <= k < 0 ->
  let p := Z.to_nat (Z.of_nat (List.length items) + k) in
  exists target,
    nth_error items p = Some target
    /\ _get obj [VPrim (PInt k)] = OK target
    /\ _set obj [VPrim (PInt k)] v
       = (a <- _to_ast v Settings_DEFAULT false ;;
          OK (set_val obj (Cont c (list_set items p (set_val target a))))).
Proof.
  intros Hval Hc Hk p.
  assert (Hp : (p < List.length items)%nat) by (unfold p; lia).
  destruct (nth_error items p) as [target |] eqn:Ht;
    [| apply nth_error_None in Ht; lia].
  pose proof (position_negative (List.length items) k Hk) as Hpos.
  fold p in Hpos.
  assert (Hget : getitem items (VPrim (PInt k)) = OK target)
    by (eapply getitem_position; eassumption).
  exists target. split; [reflexivity |]. split.
  - simpl. rewrite Hval; simpl. rewrite Hc; simpl. now rewrite Hget.
  - simpl. rewrite Hval; simpl. rewrite Hc; simpl.
    unfold _set_cb. rewrite Hval; simpl. rewrite Hget; simpl.
    unfold _replace_val.
    destruct (_to_ast v Settings_DEFAULT false) as [a | e]; simpl;
      [| reflexivity].
    unfold setitem. rewrite Hpos. reflexivity.
Qed.

Lemma negative_index_get_set_witness :
  let obj := doc_of (Cont brackets inline_pair) in
  exists target,
    nth_error inline_pair (Z.to_nat (Z.of_nat (List.length inline_pair) + -1))
    = Some target
    /\ _get obj [VPrim (PInt (-1))] = OK target
    /\ _set obj [VPrim (PInt (-1))] (vint 7)
       = (a <- _to_ast (vint 7) Settings_DEFAULT false ;;
          OK (set_val obj
                (Cont brackets
                   (list_set inline_pair
                      (Z.to_nat (Z.of_nat (List.length inline_pair) + -1))
                      (set_val target a))))).
Proof.
  intros obj.
  apply (negative_index_get_set (codec := sample_codec) obj
           brackets inline_pair (-1) (vint 7)).
  - reflexivity.
  - reflexivity.
  - simpl. lia.
Defined.

(** An index outside [[-n, n)] fails at the dereference. *)
Lemma index_outside_range {codec : Codec} (obj : item) (c : container)
    (items : list item) (k : Z) (v : pyval) :
  val obj = Cont c items ->
  ckind c = KList ->
  k < - Z.of_nat (List.length items) \/ Z.of_nat (List.length items) <= k ->
  _get obj [VPrim (PInt k)] = Error IndexOutOfRange
  /\ _set obj [VPrim (PInt k)] v = Error IndexOutOfRange
  /\ _delete obj [VPrim (PInt k)] = Error IndexOutOfRange.
Proof.
  intros Hval Hc Hk.
  pose proof (position_outside (List.length items) k Hk) as Hpos.
  assert (Hget : getitem items (VPrim (PInt k)) = Error IndexOutOfRange)
    by (unfold getitem; now rewrite Hpos).
  repeat split; simpl; rewrite Hval; simpl; rewrite Hc; simpl.
  - now rewrite Hget.
  - unfold _set_cb. rewrite Hval; simpl. now rewrite Hget.
  - unfold _delete_cb. rewrite Hval; simpl. now rewrite Hget.
Qed.

(** C10.  The code at the failing input.  In the list written [[],
    newline, [    1, 2,], newline, []] the index [-2] is in range and
    addresses position [0]: [_get] returns there what it returns at index
    [0], and deleting at index [0] gives the list of the second item, which
    takes over the indent.  Deleting at [-2] raises [IndexError]: the
    fix-up that moves the removed head subscripts the shortened list with
    the raw index [-2]. *)
Theorem negative_index_delete_raises :
  let obj := doc_of (Cont multiline_brackets one_line_of_two) in
  - Z.of_nat (List.length one_line_of_two) <= -2 < 0
  /\ position (List.length one_line_of_two) (VPrim (PInt (-2))) = OK 0%nat
  /\ _get obj [VPrim (PInt (-2))] = _get obj [VPrim (PInt 0)]
  /\ _delete obj [VPrim (PInt 0)]
     = OK (set_val obj
             (Cont multiline_brackets
                [list_item [Indent "    "] (int_node 2)
                   [Comma ","; NL newline]]))
  /\ _delete obj [VPrim (PInt (-2))] = Error IndexOutOfRange
  /\ exc_class IndexOutOfRange = IndexError.
Proof.
  repeat split; simpl; lia.
Qed.

(** ** Paths and positions *)

Lemma get_nil_or_rest (target : item) (rest : list pyval) :
  match rest with [] => OK target | _ :: _ => _get target rest end
  = _get target rest.
Proof. destruct rest; reflexivity. Qed.

(** [_get] returns the item at the positions the chain resolves to. *)
Lemma get_resolve (chain : list pyval) (obj : item) :
  _get obj chain
  = (ps <- resolve obj chain ;;
     match item_at obj ps with
     | Some x => OK x
     | None => Error IndexOutOfRange
     end).
Proof.
  revert obj; induction chain as [| k rest IH]; intros obj;
    [reflexivity |].
  cbn [_get resolve]. unfold locate, getitem.
  destruct (_key_index (val obj) k) as [i | e]; cbn [bind]; [| reflexivity].
  destruct (val obj) as [q | c items] eqn:Hval; cbn [bind ast_items];
    [reflexivity |].
  destruct (position (List.length items) i) as [p | e]; cbn [bind];
    [| reflexivity].
  destruct (nth_error items p) as [target |] eqn:Ht; [| reflexivity].
  cbn [bind]. rewrite get_nil_or_rest, IH.
  destruct (resolve target rest) as [ps | e]; cbn [bind]; [| reflexivity].
  cbn [item_at]. now rewrite Hval, Ht.
Qed.

Lemma resolve_item_at (chain : list pyval) (obj : item) (ps : list nat) :
  resolve obj chain = OK ps -> exists x, item_at obj ps = Some x.
Proof.
  revert obj ps; induction chain as [| k rest IH]; intros obj ps H.
  - injection H as <-. now exists obj.
  - cbn [resolve] in H. inv_bind H. rename x into p. clear Hx.
    destruct (val obj) as [q | c items] eqn:Hval; [discriminate H |].
    cbn [bind ast_items] in H.
    destruct (nth_error items p) as [target |] eqn:Ht; [| discriminate H].
    inv_bind H. injection H as <-.
    destruct (IH _ _ Hx) as (y & Hy). exists y.
    cbn [item_at]. now rewrite Hval, Ht.
Qed.

(** ** Path-copying update *)

Section UpdateAt.
Variable f : item -> item.

Lemma update_at_key (ps : list nat) (obj : item) :
  ps <> [] -> key (update_at f obj ps) = key obj.
Proof.
  destruct ps as [| p ps]; [congruence |]. intros _. cbn [update_at].
  destruct (val obj) as [q | c items]; [reflexivity |].
  destruct (nth_error items p); reflexivity.
Qed.

(** The item at the updated position is the image of the old one. *)
Lemma item_at_update_at_same (ps : list nat) (obj old : item) :
  item_at obj ps = Some old ->
  item_at (update_at f obj ps) ps = Some (f old).
Proof.
  revert obj; induction ps as [| p ps IH]; intros obj H.
  - now injection H as ->.
  - cbn [item_at update_at] in *.
    destruct (val obj) as [q | c items] eqn:Hval; [discriminate |].
    destruct (nth_error items p) as [target |] eqn:Ht; [| discriminate].
    cbn [val set_val].
    rewrite nth_error_list_set_eq by (eapply nth_error_lt; eassumption).
    now apply IH.
Qed.




Hypothesis f_key : forall x, key (f x) = key x.

Lemma find_key_list_set (items : list item) (p : nat) (old new : item)
    (k : pyval) (i : Z) :
  nth_error items p = Some old ->
  key new = key old ->
  find_key (list_set items p new) k i = find_key items k i.
Proof.
  revert p i; induction items as [| a items IH]; intros [| p] i Hp Hk;
    simpl in *; try discriminate.
  - injection Hp as ->. now rewrite Hk.
  - destruct (key a); [| reflexivity].
    destruct (prim_eq_val (pval p0) k); [reflexivity |]. now apply IH.
Qed.

Lemma locate_list_set (c : container) (items : list item) (p : nat)
    (old new : item) (k : pyval) :
  nth_error items p = Some old ->
  key new = key old ->
  locate (Cont c (list_set items p new)) k = locate (Cont c items) k.
Proof.
  intros Hp Hk. unfold locate, _key_index.
  destruct (ckind c); cbn [bind ast_items].
  - now rewrite list_set_length.
  - rewrite (find_key_list_set items p old new) by assumption.
    destruct (find_key items k 0); cbn [bind ast_items]; [| reflexivity].
    now rewrite list_set_length.
Qed.

Lemma update_at_key_all (ps : list nat) (obj : item) :
  key (update_at f obj ps) = key obj.
Proof.
  destruct ps; [apply f_key | now apply update_at_key].
Qed.

(** A chain that does not enter the subtree of the updated position
    resolves to the same positions after the update. *)
Lemma resolve_update_at (ps : list nat) (chain : list pyval) (obj : item)
    (qs : list nat) :
  resolve obj chain = OK qs ->
  strictly_below ps qs = false ->
  resolve (update_at f obj ps) chain = OK qs.
Proof.
  revert chain obj qs; induction ps as [| p ps IH]; intros chain obj qs Hr Hb.
  - destruct qs; [| discriminate].
    destruct chain as [| k rest]; [reflexivity |].
    cbn [resolve] in Hr. inv_bind Hr. inv_bind Hr.
    destruct (nth_error x0 x); [| discriminate Hr].
    inv_bind Hr. discriminate Hr.
  - destruct chain as [| k rest]; [exact Hr |].
    cbn [resolve] in Hr. inv_bind Hr. rename x into j.
    destruct (val obj) as [y | c items] eqn:Hv; [discriminate Hr |].
    cbn [bind ast_items] in Hr.
    destruct (nth_error items j) as [tj |] eqn:Hj; [| discriminate Hr].
    inv_bind Hr. rename x into qs'. injection Hr as <-.
    cbn [strictly_below] in Hb.
    cbn [update_at]. rewrite Hv.
    destruct (nth_error items p) as [tp |] eqn:Hp.
    + cbn [resolve val set_val].
      rewrite (locate_list_set c items p tp) by
        (assumption || apply update_at_key_all).
      rewrite Hx. cbn [bind ast_items].
      destruct (Nat.eqb_spec p j) as [<- | Hpj].
      * rewrite nth_error_list_set_eq by (eapply nth_error_lt; eassumption).
        rewrite Hp in Hj. injection Hj as <-.
        rewrite (IH rest tp qs' Hx0 Hb). reflexivity.
      * rewrite nth_error_list_set_neq by assumption.
        rewrite Hj, Hx0. reflexivity.
    + cbn [resolve]. rewrite Hv, Hx. cbn [bind ast_items].
      rewrite Hj, Hx0. reflexivity.
Qed.

End UpdateAt.

Lemma strictly_below_self (ps : list nat) : strictly_below ps ps = false.
Proof.
  induction ps as [| p ps IH]; cbn; [reflexivity | now rewrite Nat.eqb_refl].
Qed.

Lemma diverge_not_below (ps qs : list nat) :
  diverge ps qs = true -> strictly_below ps qs = false.
Proof.
  revert qs; induction ps as [| p ps IH]; intros [| q qs] Hd;
    try discriminate; cbn in *.
  destruct (p =? q)%nat; [now apply IH | reflexivity].
Qed.

(** ** [_modify_items] is a path-copying update *)

Section ModifyItemsUpdate.
Variable items_cb : item -> pyval -> result (list item).


Variable f : item -> item.

Hypothesis cb_updates :
  forall obj i new_items,
    items_cb obj i = OK new_items ->
    exists c items p old,
      val obj = Cont c items
      /\ position (List.length items) i = OK p
      /\ nth_error items p = Some old
      /\ new_items = list_set items p (f old).


End ModifyItemsUpdate.

(** ** Set *)




(** The scenarios of the specification, on the sample documents. *)
Example parse_nested_doc : parse_from_tokens nested_tokens = OK nested_doc.
Proof. reflexivity. Qed.

Example set_nested_b_9 :
  _set nested_doc [vstr "a"; vstr "b"] (vint 9) = OK nested_doc_b9
  /\ dumps_roundtrip nested_doc_b9
     = String.append "a: {b: 9, c: 2}" newline.
Proof. split; reflexivity. Qed.

Example delete_first_entry :
  parse_from_tokens two_entries_tokens = OK two_entries_doc
  /\ exists root',
       _delete two_entries_doc [vstr "a"] = OK root'
       /\ dumps_roundtrip root' = String.append "b: 2" newline.
Proof. split; [reflexivity |]. eexists. split; reflexivity. Qed.



(** ** Set key *)

Section ModifyItemsError.
Variable items_cb : item -> pyval -> result (list item).

(** When the chain resolves up to the parent of the terminal item, an
    exception of the callback there is the outcome of [_modify_items]. *)
Lemma modify_items_cb_error (prefix : list pyval) (k : pyval)
    (root parent : item) (e : exn) :
  _get root prefix = OK parent ->
  (i <- _key_index (val parent) k ;; items_cb parent i) = Error e ->
  _modify_items items_cb root (prefix ++ [k]) = Error e.
Proof.
  revert root; induction prefix as [| k0 rest IH]; intros root Hget Hcb.
  - injection Hget as ->. cbn [app _modify_items].
    destruct (_key_index (val parent) k) as [i | e0]; cbn [bind] in *;
      [now rewrite Hcb | now injection Hcb as ->].
  - cbn [_get] in Hget. inv_bind Hget. rename x into i0.
    inv_bind Hget. rename x into items. inv_bind Hget. rename x into target.
    rewrite get_nil_or_rest in Hget.
    change ((k0 :: rest) ++ [k]) with (k0 :: (rest ++ [k])).
    specialize (IH target Hget Hcb).
    cbn [_modify_items]. rewrite Hx. cbn [bind].
    destruct rest as [| k1 more]; cbn [app] in *;
      rewrite Hx0; cbn [bind]; rewrite Hx1; cbn [bind];
      rewrite IH; reflexivity.
Qed.
End ModifyItemsError.

Lemma set_key_cb_updates {codec : Codec} (nk : pyval) (p : primitive) :
  _to_ast nk Settings_DEFAULT false = OK (Prim p) ->
  forall obj i new_items,
    _set_key_cb nk obj i = OK new_items ->
    exists c items q old,
      val obj = Cont c items
      /\ position (List.length items) i = OK q
      /\ nth_error items q = Some old
      /\ new_items = list_set items q (set_key old p).
Proof.
  intros Ha obj i new_items H. unfold _set_key_cb in H.
  destruct (val obj) as [y | c items] eqn:Hv; [discriminate H |].
  destruct (ckind c); [discriminate H |].
  rewrite Ha in H. cbn [bind ast_items] in H.
  inv_bind H. rename x into old.
  apply getitem_inv in Hx. destruct Hx as (q & Hq & Hold).
  unfold setitem in H. rewrite Hq in H. cbn [bind] in H.
  injection H as <-. exists c, items, q, old. repeat split; assumption.
Qed.

Lemma set_key_cb_primitive {codec : Codec} (nk : pyval) (obj : item)
    (i : pyval) (new_items : list item) :
  _set_key_cb nk obj i = OK new_items ->
  exists p, _to_ast nk Settings_DEFAULT false = OK (Prim p).
Proof.
  unfold _set_key_cb. intros H.
  destruct (val obj) as [y | c items]; [discriminate H |].
  destruct (ckind c); [discriminate H |].
  inv_bind H. destruct x as [p | c' items']; [eauto | discriminate H].
Qed.



(** ** Reading back what the synthesizer writes *)

Lemma span_stop (p : token -> bool) (h : list token) (t : token)
    (r : list token) :
  forallb p h = true -> p t = false -> span p (h ++ t :: r) = (h, t :: r).
Proof.
  intros Hh Ht. induction h as [| a h IH]; cbn [app span].
  - now rewrite Ht.
  - cbn [forallb] in Hh. apply andb_true_iff in Hh. destruct Hh as [Ha Hh].
    now rewrite Ha, (IH Hh).
Qed.

Lemma is_end_not_trivia (m : item_mode) (t : token) :
  is_end m t = true ->
  is_head_trivia t = false /\ is_comma t = false /\ is_nl t = false
  /\ is_inline_trivia t = false.
Proof. destruct m, t; cbn; intros H; try discriminate H; repeat split. Qed.

Lemma starts_entry_inv (m : item_mode) (t : token) :
  starts_entry m t = true ->
  is_head_trivia t = false /\ is_end m t = false /\ is_comma t = false
  /\ is_nl t = false /\ is_inline_trivia t = false.
Proof.
  unfold starts_entry. intros H.
  apply andb_true_iff in H. destruct H as [H Hc].
  apply andb_true_iff in H. destruct H as [Ht He].
  apply negb_true_iff in Hc, Ht, He.
  repeat split; try assumption; destruct t; cbn in *; congruence.
Qed.

Lemma parse_items_eq (f : nat) (m : item_mode) (toks : list token) :
  parse_items (S f) m toks =
  let (h, r) := span is_head_trivia toks in
  match r with
  | [] => Error ParseFailure
  | t :: _ =>
      if is_end m t then OK ([], h, r)
      else
        '(k, inn, r1) <- parse_key m r ;;
        '(v, r2) <- parse_val f r1 ;;
        let (tl, r3) := parse_tail m r2 in
        '(items, closing, rest) <- parse_items f m r3 ;;
        if separated m tl || is_nil items
        then OK (Item h k inn v tl :: items, closing, rest)
        else Error ParseFailure
  end.
Proof. reflexivity. Qed.

(** Closing trivia and the closing token end the items. *)
Lemma parse_items_end (f : nat) (m : item_mode) (h : list token) (e : token)
    (rest : list token) :
  forallb is_head_trivia h = true ->
  is_end m e = true ->
  parse_items (S f) m (h ++ e :: rest) = OK ([], h, e :: rest).
Proof.
  intros Hh He. rewrite parse_items_eq.
  rewrite (span_stop _ h e rest Hh) by apply (is_end_not_trivia m e He).
  now rewrite He.
Qed.

Lemma parse_items_end_nil (f : nat) (m : item_mode) (e : token)
    (rest : list token) :
  is_end m e = true ->
  parse_items (S f) m (e :: rest) = OK ([], [], e :: rest).
Proof. intros He. exact (parse_items_end f m [] e rest eq_refl He). Qed.

(** One entry, its trailing trivia, and the entries after it. *)
Lemma parse_items_step (f : nat) (m : item_mode) (h : list token)
    (r : rendered) (rest tl rest' : list token) (items : list item)
    (closing out : list token) :
  forallb is_head_trivia h = true ->
  parses_as m r ->
  (List.length (r_toks r) <= f)%nat ->
  parse_tail m rest = (tl, rest') ->
  parse_items f m rest' = OK (items, closing, out) ->
  separated m tl || is_nil items = true ->
  parse_items (S f) m (h ++ r_toks r ++ rest)
  = OK (Item h (r_key r) (r_inner r) (r_val r) tl :: items, closing, out).
Proof.
  intros Hh [(t & ts & Htoks & Hstart) Hparse] Hlen Htail Hitems Hsep.
  specialize (Hparse f rest Hlen). unfold parse_entry in Hparse.
  apply starts_entry_inv in Hstart.
  destruct Hstart as (Htriv & Hend & _).
  rewrite parse_items_eq. rewrite Htoks in *. cbn [app] in *.
  rewrite (span_stop _ h t (ts ++ rest) Hh Htriv). rewrite Hend.
  destruct (parse_key m (t :: ts ++ rest)) as [[[k inn] r1] | e];
    cbn [bind] in *; [| discriminate Hparse].
  destruct (parse_val f r1) as [[v r2] | e]; cbn [bind] in *;
    [| discriminate Hparse].
  injection Hparse as -> -> -> ->.
  rewrite Htail, Hitems. cbn [bind]. now rewrite Hsep.
Qed.

Lemma parse_tail_none (m : item_mode) (t : token) (ts : list token) :
  is_comma t = false -> is_inline_trivia t = false -> is_nl t = false ->
  parse_tail m (t :: ts) = ([], t :: ts).
Proof.
  intros Hc Hi Hn.
  assert (Hspan : span is_inline_trivia (t :: ts) = ([], t :: ts))
    by (cbn [span]; now rewrite Hi).
  unfold parse_tail, take_if.
  destruct m; rewrite ?Hc, Hspan, Hn; reflexivity.
Qed.

Lemma parse_tail_comma_space (m : item_mode) (c s : string) (t : token)
    (ts : list token) :
  m <> MTop -> is_inline_trivia t = false -> is_nl t = false ->
  parse_tail m (Comma c :: Space s :: t :: ts)
  = ([Comma c; Space s], t :: ts).
Proof.
  intros Hm Hi Hn.
  assert (Hspan : span is_inline_trivia (Space s :: t :: ts)
                  = ([Space s], t :: ts))
    by (apply (span_stop is_inline_trivia [Space s] t ts eq_refl Hi)).
  unfold parse_tail, take_if.
  destruct m; [| | congruence]; cbn [is_comma]; rewrite Hspan, Hn;
    reflexivity.
Qed.

Lemma parse_tail_comma_nl (m : item_mode) (c n : string) (ts : list token) :
  m <> MTop ->
  parse_tail m (Comma c :: NL n :: ts) = ([Comma c; NL n], ts).
Proof. intros Hm. destruct m; [| | congruence]; reflexivity. Qed.

Lemma parse_tail_top_nl (n : string) (ts : list token) :
  parse_tail MTop (NL n :: ts) = ([NL n], ts).
Proof. reflexivity. Qed.

Lemma separated_comma (m : item_mode) (c : string) (tl : list token) :
  m <> MTop -> separated m (Comma c :: tl) = true.
Proof. intros Hm. destruct m; [| | congruence]; reflexivity. Qed.

Section Layouts.
Variable m : item_mode.

Lemma inline_items_content (rs : list rendered) :
  map item_content (inline_items rs) = map rendered_content rs.
Proof. induction rs as [| r rs IH]; cbn; [reflexivity | now rewrite IH]. Qed.

(** After an item of the inline layout: the comma and space before the
    next item are its tail; before the closing token it has none. *)
Lemma parse_inline_tail (rs : list rendered) (e : token)
    (rest : list token) :
  m <> MTop ->
  Forall (parses_as m) rs ->
  is_end m e = true ->
  parse_tail m
    (flat_map (fun t => Comma "," :: Space " " :: t) (map r_toks rs)
     ++ e :: rest)
  = (inline_tail rs, comma_separated (map r_toks rs) ++ e :: rest).
Proof.
  intros Hm Hrs He. destruct Hrs as [| r rs [(t & ts & Ht & Hs) _] _].
  - destruct (is_end_not_trivia m e He) as (_ & Hc & Hn & Hi).
    now apply parse_tail_none.
  - destruct (starts_entry_inv m t Hs) as (_ & _ & _ & Hn & Hi).
    cbn [map flat_map inline_tail]. rewrite comma_separated_cons.
    rewrite Ht. cbn [app]. rewrite <- app_assoc.
    now apply parse_tail_comma_space.
Qed.

(** The items of a container in the inline layout. *)
Lemma parse_inline_items (rs : list rendered) :
  m <> MTop ->
  Forall (parses_as m) rs ->
  forall fuel e rest,
    is_end m e = true ->
    (List.length (comma_separated (map r_toks rs)) < fuel)%nat ->
    parse_items fuel m (comma_separated (map r_toks rs) ++ e :: rest)
    = OK (inline_items rs, [], e :: rest).
Proof.
  intros Hm Hrs.
  induction Hrs as [| r rs Hr Hrs IH]; intros fuel e rest He Hlen;
    (destruct fuel as [| f]; [lia |]).
  - now apply parse_items_end_nil.
  - cbn [map] in *. rewrite comma_separated_cons in *.
    rewrite length_app in Hlen. rewrite <- app_assoc.
    assert (H1 : (1 <= List.length (r_toks r))%nat)
      by (destruct Hr as [(t & ts & Ht & _) _]; rewrite Ht; cbn; lia).
    eapply (parse_items_step f m [] r).
    + reflexivity.
    + assumption.
    + lia.
    + now apply parse_inline_tail.
    + apply IH; [assumption |].
      destruct rs as [| r' rs']; [cbn; lia |].
      cbn [map] in *. rewrite comma_separated_cons.
      cbn [flat_map app List.length] in Hlen. rewrite !length_app in *. lia.
    + destruct rs; [apply orb_true_r |].
      cbn [inline_tail]. now rewrite separated_comma.
Qed.

Lemma multiline_items_content (ind : string) (rs : list rendered) :
  map item_content (multiline_items ind rs) = map rendered_content rs.
Proof.
  unfold multiline_items. rewrite map_map. reflexivity.
Qed.

(** The items of a container in the multiline layout, up to the closing
    indentation. *)
Lemma parse_multiline_items (ind : string) (rs : list rendered) :
  m <> MTop ->
  Forall (parses_as m) rs ->
  forall fuel closing e rest,
    forallb is_head_trivia closing = true ->
    is_end m e = true ->
    (List.length
       (flat_map (fun t => [Indent ind] ++ t ++ [Comma ","; NL newline])
          (map r_toks rs))
     < fuel)%nat ->
    parse_items fuel m
      (flat_map (fun t => [Indent ind] ++ t ++ [Comma ","; NL newline])
         (map r_toks rs)
       ++ closing ++ e :: rest)
    = OK (multiline_items ind rs, closing, e :: rest).
Proof.
  intros Hm Hrs.
  induction Hrs as [| r rs Hr _ IH]; intros fuel closing e rest Hcl He Hlen;
    (destruct fuel as [| f]; [lia |]).
  - now apply parse_items_end.
  - cbn [map flat_map multiline_items] in *. rewrite !length_app in Hlen.
    cbn [List.length] in Hlen. rewrite <- !app_assoc.
    eapply (parse_items_step f m [Indent ind] r).
    + reflexivity.
    + assumption.
    + lia.
    + cbn [app]. now apply parse_tail_comma_nl.
    + apply IH; [assumption | assumption | lia].
    + now rewrite separated_comma.
Qed.

End Layouts.

Lemma top_level_items_content (rs : list rendered) :
  map item_content (top_level_items rs) = map rendered_content rs.
Proof. unfold top_level_items. rewrite map_map. reflexivity. Qed.

(** The entries of the braceless top-level mapping: one per line. *)
Lemma parse_top_level_items (rs : list rendered) :
  Forall (parses_as MTop) rs ->
  forall fuel e rest,
    is_end MTop e = true ->
    (List.length (flat_map (fun t => t ++ [NL newline]) (map r_toks rs))
     < fuel)%nat ->
    parse_items fuel MTop
      (flat_map (fun t => t ++ [NL newline]) (map r_toks rs) ++ e :: rest)
    = OK (top_level_items rs, [], e :: rest).
Proof.
  intros Hrs.
  induction Hrs as [| r rs Hr _ IH]; intros fuel e rest He Hlen;
    (destruct fuel as [| f]; [lia |]).
  - now apply parse_items_end_nil.
  - cbn [map flat_map top_level_items] in *. rewrite !length_app in Hlen.
    cbn [List.length] in Hlen. rewrite <- !app_assoc.
    eapply (parse_items_step f MTop [] r).
    + reflexivity.
    + assumption.
    + lia.
    + cbn [app]. apply parse_tail_top_nl.
    + apply IH; [assumption | lia].
    + reflexivity.
Qed.

(** ** Keys and the ordered dict *)

Lemma dyadic_eqb_sym (m1 e1 m2 e2 : Z) :
  dyadic_eqb m1 e1 m2 e2 = dyadic_eqb m2 e2 m1 e1.
Proof. unfold dyadic_eqb. rewrite (Z.min_comm e1 e2). apply Z.eqb_sym. Qed.

Lemma bool_eqb_sym (a b : bool) : Bool.eqb a b = Bool.eqb b a.
Proof. destruct a, b; reflexivity. Qed.

Lemma prim_eqb_sym (a b : pyprim) : prim_eqb a b = prim_eqb b a.
Proof.
  destruct a as [s | x | | x | f], b as [t | y | | y | g]; cbn;
    try reflexivity;
    try apply String.eqb_sym; try apply bool_eqb_sym; try apply Z.eqb_sym.
  destruct f, g; cbn; try reflexivity;
    [apply bool_eqb_sym | apply dyadic_eqb_sym].
Qed.

Lemma od_setitem_fresh (d : list (pyval * pyval)) (k : pyprim) (v : pyval) :
  Forall (fun kv => prim_eq_val k (fst kv) = false) d ->
  od_setitem d k v = d ++ [(VPrim k, v)].
Proof.
  induction 1 as [| [k' v'] d Hk _ IH]; cbn [od_setitem app];
    [reflexivity |].
  cbn [fst] in Hk. now rewrite Hk, IH.
Qed.

(** With keys that differ from one another and from those already there,
    every entry is appended. *)
Lemma fold_od_setitem_distinct (pairs : list (pyprim * pyval))
    (d : list (pyval * pyval)) :
  Forall (fun kv =>
            Forall (fun kv' => prim_eq_val (fst kv) (fst kv') = false) d)
    pairs ->
  pairwise_distinct (map (fun kv => VPrim (fst kv)) pairs) = true ->
  fold_left (fun d kv => od_setitem d (fst kv) (snd kv)) pairs d
  = d ++ map (fun kv => (VPrim (fst kv), snd kv)) pairs.
Proof.
  revert d; induction pairs as [| [k v] pairs IH]; intros d Hd Hp.
  - cbn. now rewrite app_nil_r.
  - cbn [fold_left fst snd map pairwise_distinct] in *.
    apply andb_true_iff in Hp. destruct Hp as [Hk Hp].
    inversion Hd as [| ? ? Hkd Hd']; subst. cbn [fst] in Hkd.
    rewrite (od_setitem_fresh d k v Hkd).
    rewrite IH; [now rewrite <- app_assoc | | assumption].
    rewrite forallb_forall in Hk.
    rewrite Forall_forall in *. intros [k2 v2] Hin. cbn [fst].
    apply Forall_app. split; [exact (Hd' (k2, v2) Hin) |].
    constructor; [| constructor]. cbn [fst prim_eq_val].
    specialize (Hk (VPrim k2)
                  (in_map (fun kv => VPrim (fst kv)) pairs (k2, v2) Hin)).
    apply negb_true_iff in Hk. cbn [key_eqb prim_eq_val] in Hk.
    now rewrite prim_eqb_sym.
Qed.

Lemma OrderedDict_distinct (pairs : list (pyprim * pyval)) :
  pairwise_distinct (map (fun kv => VPrim (fst kv)) pairs) = true ->
  OrderedDict pairs = map (fun kv => (VPrim (fst kv), snd kv)) pairs.
Proof.
  intros Hp. unfold OrderedDict.
  rewrite fold_od_setitem_distinct; [reflexivity | | assumption].
  apply Forall_forall. intros; constructor.
Qed.

(** All the keys of an ordered dict built by projection are atoms. *)
Lemma od_setitem_keys (d : list (pyval * pyval)) (k : pyprim) (v : pyval) :
  Forall (fun kv => is_prim (fst kv) = true) d ->
  Forall (fun kv => is_prim (fst kv) = true) (od_setitem d k v).
Proof.
  induction 1 as [| [k' v'] d Hk Hd IH]; cbn [od_setitem].
  - constructor; [reflexivity | constructor].
  - destruct (prim_eq_val k k'); constructor; assumption.
Qed.

Lemma OrderedDict_keys (pairs : list (pyprim * pyval)) :
  Forall (fun kv => is_prim (fst kv) = true) (OrderedDict pairs).
Proof.
  unfold OrderedDict.
  assert (H : forall d,
             Forall (fun kv : pyval * pyval => is_prim (fst kv) = true) d ->
             Forall (fun kv : pyval * pyval => is_prim (fst kv) = true)
               (fold_left (fun d kv => od_setitem d (fst kv) (snd kv))
                  pairs d)).
  { induction pairs as [| kv pairs IH]; intros d Hd; [exact Hd |].
    cbn [fold_left]. apply IH. now apply od_setitem_keys. }
  apply H. constructor.
Qed.

(** ** Containers *)

Lemma parse_val_bracket_eq (kind : container_kind) (m : item_mode)
    (st en : token) (f : nat) (rest : list token) :
  bracketed kind m st en ->
  parse_val (S f) (st :: rest) =
  let (nl, r1) := take_if is_nl rest in
  '(items, closing, r2) <- parse_items f m r1 ;;
  match r2 with
  | e :: r3 =>
      OK (Cont (mkContainer kind (st :: nl) (closing ++ [e])
                  (negb (is_nil nl)) false) items, r3)
  | [] => Error ParseFailure
  end.
Proof.
  intros [(-> & -> & -> & _) | (-> & -> & -> & _)]; reflexivity.
Qed.

Lemma bracketed_end (kind : container_kind) (m : item_mode) (st en : token) :
  bracketed kind m st en -> is_end m en = true /\ m <> MTop.
Proof.
  intros [(_ & -> & _ & ->) | (_ & -> & _ & ->)]; split;
    try reflexivity; discriminate.
Qed.

Lemma take_if_not_nl (t : token) (ts : list token) :
  is_nl t = false -> take_if is_nl (t :: ts) = ([], t :: ts).
Proof. intros H. unfold take_if. now rewrite H. Qed.

Lemma parse_val_inline_layout (kind : container_kind) (m : item_mode)
    (st en : token) (rs : list rendered) :
  bracketed kind m st en ->
  Forall (parses_as m) rs ->
  forall fuel rest,
    (List.length (inline_layout st en (map r_toks rs)) <= fuel)%nat ->
    parse_val fuel (inline_layout st en (map r_toks rs) ++ rest)
    = OK (Cont (mkContainer kind [st] [en] false false) (inline_items rs),
          rest).
Proof.
  intros Hb Hrs fuel rest Hlen.
  destruct (bracketed_end kind m st en Hb) as [He Hm].
  unfold inline_layout in *. rewrite !length_app in Hlen.
  cbn [List.length] in Hlen.
  destruct fuel as [| f]; [lia |].
  pose proof (parse_inline_items m rs Hm Hrs f en rest He ltac:(lia)) as Hp.
  set (body := comma_separated (map r_toks rs)) in *.
  replace (([st] ++ body ++ [en]) ++ rest) with (st :: (body ++ en :: rest))
    by (cbn [app]; now rewrite <- !app_assoc).
  rewrite (parse_val_bracket_eq kind m st en f _ Hb).
  assert (Hnl : exists t ts, body ++ en :: rest = t :: ts /\ is_nl t = false).
  { unfold body. destruct rs as [| r rs'].
    - exists en, rest. split; [reflexivity |].
      apply (is_end_not_trivia m en He).
    - inversion Hrs as [| ? ? [(t & ts & Ht & Hs) _] _]; subst.
      cbn [map]. rewrite comma_separated_cons, Ht. cbn [app].
      eexists _, _. split; [reflexivity |].
      apply (starts_entry_inv m t Hs). }
  destruct Hnl as (t & ts & Heq & Hnl).
  rewrite Heq in *. rewrite (take_if_not_nl t ts Hnl).
  rewrite Hp. reflexivity.
Qed.

Lemma parse_val_multiline_layout (kind : container_kind) (m : item_mode)
    (st en : token) (s : Settings) (rs : list rendered) :
  bracketed kind m st en ->
  Forall (parses_as m) rs ->
  forall fuel rest,
    (List.length (multiline_layout s st en (map r_toks rs)) <= fuel)%nat ->
    parse_val fuel (multiline_layout s st en (map r_toks rs) ++ rest)
    = OK (Cont (mkContainer kind [st; NL newline] (closing_indent s ++ [en])
                  true false)
            (multiline_items (spaces (4 * Z.to_nat (indent s + 1))) rs),
          rest).
Proof.
  intros Hb Hrs fuel rest Hlen.
  destruct (bracketed_end kind m st en Hb) as [He Hm].
  unfold multiline_layout in *. fold (closing_indent s) in *.
  set (ind := spaces (4 * Z.to_nat (indent s + 1))) in *.
  assert (Hcl : forallb is_head_trivia (closing_indent s) = true)
    by (unfold closing_indent; destruct (0 <? indent s); reflexivity).
  rewrite !length_app in Hlen. cbn [List.length] in Hlen.
  destruct fuel as [| f]; [lia |].
  pose proof (parse_multiline_items m ind rs Hm Hrs f (closing_indent s) en
                rest Hcl He ltac:(lia)) as Hp.
  set (body := flat_map
                 (fun t => [Indent ind] ++ t ++ [Comma ","; NL newline])
                 (map r_toks rs)) in *.
  replace (([st; NL newline] ++ body ++ closing_indent s ++ [en]) ++ rest)
    with (st :: NL newline :: (body ++ closing_indent s ++ en :: rest))
    by (cbn [app]; now rewrite <- !app_assoc).
  rewrite (parse_val_bracket_eq kind m st en f _ Hb).
  cbn [take_if is_nl]. rewrite Hp. reflexivity.
Qed.

(** ** Projection of what was read back *)

Lemma mapM_ext {A B : Type} (f g : A -> result B) (l : list A) :
  (forall x, f x = g x) -> mapM f l = mapM g l.
Proof.
  intros H. induction l as [| a l IH]; cbn [mapM]; [reflexivity |].
  now rewrite H, IH.
Qed.

Lemma mapM_map {A B C : Type} (h : A -> B) (g : B -> result C) (l : list A) :
  mapM (fun x => g (h x)) l = mapM g (map h l).
Proof.
  induction l as [| a l IH]; cbn [mapM map]; [reflexivity |].
  now rewrite IH.
Qed.

(** A comprehension over two lists with the same image under [h] and
    [h']. *)
Lemma mapM_via {A A' B C : Type} (h : A -> B) (h' : A' -> B)
    (g : B -> result C) (l : list A) (l' : list A') :
  map h l = map h' l' ->
  mapM (fun x => g (h x)) l = mapM (fun x => g (h' x)) l'.
Proof.
  revert l'; induction l as [| a l IH]; intros [| a' l'] H;
    try discriminate H; [reflexivity |].
  cbn [map] in H. injection H as Ha Hl.
  cbn [mapM]. now rewrite Ha, (IH l' Hl).
Qed.

(** The projection of a container depends on the keys and values of its
    items only. *)
Lemma python_value_content (c : container) (items items' : list item) :
  map item_content items = map item_content items' ->
  _python_value (Cont c items) = _python_value (Cont c items').
Proof.
  intros H. cbn [_python_value]. destruct (ckind c).
  - pose proof (mapM_via item_content item_content
                  (fun kc : option primitive * ast => _python_value (snd kc))
                  items items' H) as E.
    cbn [item_content snd] in E. now rewrite E.
  - pose proof (mapM_via item_content item_content
                  (fun kc : option primitive * ast =>
                     k <- match fst kc with
                          | Some p => OK (pval p)
                          | None => Error NoSuchAttribute
                          end ;;
                     v <- _python_value (snd kc) ;; OK (k, v))
                  items items' H) as E.
    cbn [item_content fst snd] in E. unfold item_key_value. now rewrite E.
Qed.

Lemma project_list (c : container) (items : list item) (rs : list rendered)
    (vs : list pyval) :
  ckind c = KList ->
  map item_content items = map rendered_content rs ->
  mapM (fun r => _python_value (r_val r)) rs = OK vs ->
  _python_value (Cont c items) = OK (VList vs).
Proof.
  intros Hc Hcontent Hvs. cbn [_python_value]. rewrite Hc.
  pose proof (mapM_via item_content rendered_content
                (fun kc : option primitive * ast => _python_value (snd kc))
                items rs Hcontent) as E.
  cbn [item_content rendered_content snd] in E.
  now rewrite E, Hvs.
Qed.

Lemma project_map (c : container) (items : list item) (rs : list rendered)
    (pairs : list (pyprim * pyval)) :
  ckind c = KMap ->
  map item_content items = map rendered_content rs ->
  mapM rendered_pair rs = OK pairs ->
  _python_value (Cont c items) = OK (VDict (OrderedDict pairs)).
Proof.
  intros Hc Hcontent Hpairs. cbn [_python_value]. rewrite Hc.
  pose proof (mapM_via item_content rendered_content
                (fun kc : option primitive * ast =>
                   k <- match fst kc with
                        | Some p => OK (pval p)
                        | None => Error NoSuchAttribute
                        end ;;
                   v <- _python_value (snd kc) ;; OK (k, v))
                items rs Hcontent) as E.
  cbn [item_content rendered_content fst snd] in E.
  unfold item_key_value. rewrite E.
  unfold rendered_pair in Hpairs. now rewrite Hpairs.
Qed.

(** ** Synthesize, parse, project *)

Section SynthesizeThenProject.
Context {codec : Codec}.

Lemma prim_tokens (p : pyprim) (s : Settings) (as_key : bool) :
  exists q, _to_tokens (VPrim p) s as_key false = OK [TPrim q] /\ pval q = p.
Proof.
  destruct p as [str | b | | z | f]; cbn [_to_tokens];
    try (eexists; split; reflexivity).
  destruct (bare_keys s && as_key && BARE_WORD_FULL_MATCH str);
    eexists; split; reflexivity.
Qed.

Lemma round_trips_prim (p : pyprim) : round_trips (VPrim p).
Proof.
  intros s. destruct (prim_tokens p s false) as (q & Hq & Hp).
  exists [TPrim q], (Prim q). split; [assumption |].
  split; [left; eauto |]. split.
  - intros [| f] rest Hlen; [cbn in Hlen; lia | reflexivity].
  - cbn. now rewrite Hp.
Qed.

Lemma value_tokens_first (toks : list token) :
  value_tokens toks ->
  exists t ts,
    toks = t :: ts /\ is_head_trivia t = false /\ is_inline_trivia t = false
    /\ is_comma t = false
    /\ forall m, is_end m t = false.
Proof.
  intros [(p & ->) | [(s & r & ->) | (s & r & ->)]];
    eexists _, _; (split; [reflexivity |]); repeat split; intros m;
    destruct m; reflexivity.
Qed.

(** The items of a sequence, rendered at settings [s']. *)
Lemma render_list (l : list pyval) (s' : Settings) :
  Forall (fun x => native x = true -> round_trips x) l ->
  forallb native l = true ->
  exists rs,
    mapM (fun x => _to_tokens x s' false false) l = OK (map r_toks rs)
    /\ Forall (parses_as MList) rs
    /\ mapM (fun r => _python_value (r_val r)) rs = OK (map plain l).
Proof.
  induction 1 as [| x l Hx _ IH]; intros Hn.
  - exists []. repeat split. constructor.
  - cbn [forallb] in Hn. apply andb_true_iff in Hn. destruct Hn as [Hnx Hnl].
    destruct (IH Hnl) as (rs & Hm & Hp & Hv).
    destruct (Hx Hnx s') as (toks & a & Ht & Hvt & Hparse & Hproj).
    exists (mkRendered toks None [] a :: rs).
    cbn [mapM map r_toks r_val]. rewrite Ht, Hm, Hproj, Hv. cbn [bind].
    repeat split. constructor; [| assumption].
    destruct (value_tokens_first toks Hvt) as (t & ts & -> & Htr & _ & Hc & He).
    split.
    + exists t, ts. split; [reflexivity |]. unfold starts_entry.
      now rewrite Htr, Hc, (He MList).
    + intros fuel rest Hlen. unfold parse_entry. cbn [r_toks parse_key bind].
      now rewrite (Hparse fuel rest Hlen).
Qed.

(** The entries of a mapping, rendered at settings [s']. *)
Lemma render_dict (m : item_mode) (kvs : list (pyval * pyval))
    (s' : Settings) :
  m <> MList ->
  Forall (fun kv => (native (fst kv) = true -> round_trips (fst kv))
                    /\ (native (snd kv) = true -> round_trips (snd kv))) kvs ->
  forallb (fun kv : pyval * pyval => is_prim (fst kv) && native (snd kv)) kvs
  = true ->
  exists rs,
    mapM (fun kv => _map_item_tokens kv s') kvs = OK (map r_toks rs)
    /\ Forall (parses_as m) rs
    /\ Forall (fun r => exists q vt,
                 r_toks r = TPrim q :: Colon ":" :: Space " " :: vt) rs
    /\ mapM rendered_pair rs
       = OK (map (fun kv => (prim_of (fst kv), plain (snd kv))) kvs).
Proof.
  intros Hm. induction 1 as [| [k x] kvs [_ Hx] _ IH]; intros Hn.
  - exists []. repeat split; constructor.
  - cbn [forallb fst snd] in *.
    apply andb_true_iff in Hn. destruct Hn as [Hnx Hnl].
    apply andb_true_iff in Hnx. destruct Hnx as [Hk Hnx].
    destruct (IH Hnl) as (rs & Hmap & Hp & Hshape & Hv).
    destruct k as [p | | | |]; try discriminate Hk.
    destruct (prim_tokens p s' true) as (q & Hq & Hpq).
    destruct (Hx Hnx s') as (toks & a & Ht & Hvt & Hparse & Hproj).
    exists (mkRendered (TPrim q :: Colon ":" :: Space " " :: toks) (Some q)
              [Colon ":"; Space " "] a :: rs).
    cbn [mapM map r_toks r_val r_key rendered_pair _map_item_tokens].
    rewrite Hq, Ht, Hmap. cbn [bind app].
    unfold rendered_pair at 1. cbn [r_key r_val bind].
    rewrite Hproj, Hv, Hpq. cbn [bind prim_of].
    repeat split.
    + constructor; [| assumption]. split.
      * eexists _, _. split; [reflexivity |]. destruct m; reflexivity.
      * intros fuel rest Hlen. cbn [r_toks List.length] in *.
        destruct (value_tokens_first toks Hvt)
          as (t & ts & -> & _ & Hi & _ & _).
        unfold parse_entry.
        assert (Hkey : parse_key m
                         ((TPrim q :: Colon ":" :: Space " " :: t :: ts)
                          ++ rest)
                       = OK (Some q, [Colon ":"; Space " "],
                             (t :: ts) ++ rest)).
        { assert (Hspan : span is_inline_trivia
                            (Space " " :: t :: ts ++ rest)
                          = ([Space " "], t :: ts ++ rest))
            by exact (span_stop is_inline_trivia [Space " "] t (ts ++ rest)
                        eq_refl Hi).
          destruct m; [congruence | |]; cbn [parse_key app];
            rewrite Hspan; reflexivity. }
        rewrite Hkey. cbn [bind].
        rewrite (Hparse fuel rest ltac:(cbn [List.length] in *; lia)).
        reflexivity.
    + constructor; [eexists _, _; reflexivity | assumption].
Qed.

End SynthesizeThenProject.

Section RoundTrip.
Context {codec : Codec}.

Lemma round_trips_sequence (l : list pyval) (s : Settings) :
  Forall (fun x => native x = true -> round_trips x) l ->
  forallb native l = true ->
  exists toks a,
    _list_tokens l s = OK toks
    /\ value_tokens toks
    /\ (forall fuel rest,
          (List.length toks <= fuel)%nat ->
          parse_val fuel (toks ++ rest) = OK (a, rest))
    /\ _python_value a = OK (VList (map plain l)).
Proof.
  intros Hl Hn. unfold _list_tokens. rewrite container_unfold.
  cbn [to_iter item_func start end_ list_container_settings].
  assert (Hb : bracketed KList MList (ListStart "[") (ListEnd "]"))
    by (left; repeat split).
  destruct (renders_inline s (List.length l)).
  - destruct (render_list l s Hl Hn) as (rs & Hm & Hp & Hv).
    rewrite Hm. cbn [bind]. eexists _, _. split; [reflexivity |].
    split; [right; left; eexists _, _; reflexivity |]. split.
    + intros fuel rest Hlen.
      exact (parse_val_inline_layout KList MList _ _ rs Hb Hp fuel rest Hlen).
    + apply (project_list _ _ rs); [reflexivity | | assumption].
      apply inline_items_content.
  - destruct (render_list l (deeper s) Hl Hn) as (rs & Hm & Hp & Hv).
    rewrite Hm. cbn [bind]. eexists _, _. split; [reflexivity |].
    split; [right; left; eexists _, _; reflexivity |]. split.
    + intros fuel rest Hlen.
      exact (parse_val_multiline_layout KList MList _ _ s rs Hb Hp fuel rest
               Hlen).
    + apply (project_list _ _ rs); [reflexivity | | assumption].
      apply multiline_items_content.
Qed.

Lemma prim_keys_map (kvs : list (pyval * pyval)) :
  forallb (fun kv : pyval * pyval => is_prim (fst kv) && native (snd kv)) kvs
  = true ->
  map (fun kv : pyval * pyval => VPrim (prim_of (fst kv))) kvs = map fst kvs.
Proof.
  induction kvs as [| [k x] kvs IH]; intros H; [reflexivity |].
  cbn [forallb fst snd map] in *.
  apply andb_true_iff in H. destruct H as [Hk H].
  apply andb_true_iff in Hk. destruct Hk as [Hk _].
  destruct k; try discriminate Hk. cbn [prim_of]. now rewrite (IH H).
Qed.

(** With atomic, pairwise distinct keys the ordered dict of the projected
    entries is the mapping itself. *)
Lemma projected_entries (kvs : list (pyval * pyval)) :
  forallb (fun kv : pyval * pyval => is_prim (fst kv) && native (snd kv)) kvs
  = true ->
  pairwise_distinct (map fst kvs) = true ->
  OrderedDict (map (fun kv => (prim_of (fst kv), plain (snd kv))) kvs)
  = map (fun kv : pyval * pyval => (fst kv, plain (snd kv))) kvs.
Proof.
  intros Hk Hd. rewrite OrderedDict_distinct.
  - rewrite map_map. cbn [fst snd].
    clear Hd. induction kvs as [| [k x] kvs IH]; [reflexivity |].
    cbn [forallb fst snd map] in *.
    apply andb_true_iff in Hk. destruct Hk as [Hk Hr].
    apply andb_true_iff in Hk. destruct Hk as [Hk _].
    destruct k; try discriminate Hk. cbn [prim_of]. now rewrite (IH Hr).
  - rewrite map_map. cbn [fst]. now rewrite prim_keys_map.
Qed.

Lemma round_trips_mapping (kvs : list (pyval * pyval)) (s : Settings) :
  Forall (fun kv => (native (fst kv) = true -> round_trips (fst kv))
                    /\ (native (snd kv) = true -> round_trips (snd kv))) kvs ->
  forallb (fun kv : pyval * pyval => is_prim (fst kv) && native (snd kv)) kvs
  = true ->
  pairwise_distinct (map fst kvs) = true ->
  exists toks a,
    _map_tokens kvs s = OK toks
    /\ value_tokens toks
    /\ (forall fuel rest,
          (List.length toks <= fuel)%nat ->
          parse_val fuel (toks ++ rest) = OK (a, rest))
    /\ _python_value a
       = OK (VDict (map (fun kv : pyval * pyval => (fst kv, plain (snd kv)))
                      kvs)).
Proof.
  intros Hl Hn Hd. unfold _map_tokens. rewrite container_unfold.
  cbn [to_iter item_func start end_ map_container_settings].
  assert (Hb : bracketed KMap MMap (MapStart "{") (MapEnd "}"))
    by (right; repeat split).
  assert (Hm : MMap <> MList) by discriminate.
  destruct (renders_inline s (List.length kvs)).
  - destruct (render_dict MMap kvs s Hm Hl Hn) as (rs & Hmap & Hp & _ & Hv).
    rewrite Hmap. cbn [bind]. eexists _, _. split; [reflexivity |].
    split; [right; right; eexists _, _; reflexivity |]. split.
    + intros fuel rest Hlen.
      exact (parse_val_inline_layout KMap MMap _ _ rs Hb Hp fuel rest Hlen).
    + rewrite <- (projected_entries kvs Hn Hd).
      apply (project_map _ _ rs); [reflexivity | | assumption].
      apply inline_items_content.
  - destruct (render_dict MMap kvs (deeper s) Hm Hl Hn)
      as (rs & Hmap & Hp & _ & Hv).
    rewrite Hmap. cbn [bind]. eexists _, _. split; [reflexivity |].
    split; [right; right; eexists _, _; reflexivity |]. split.
    + intros fuel rest Hlen.
      exact (parse_val_multiline_layout KMap MMap _ _ s rs Hb Hp fuel rest
               Hlen).
    + rewrite <- (projected_entries kvs Hn Hd).
      apply (project_map _ _ rs); [reflexivity | | assumption].
      apply multiline_items_content.
Qed.

(** Every native value round-trips as a value standing alone. *)
Lemma native_round_trips (v : pyval) : native v = true -> round_trips v.
Proof.
  induction v as [p | l IH | l IH | kvs IH |] using pyval_nested_ind;
    intros Hn s.
  - apply round_trips_prim.
  - rewrite _to_tokens_eq. cbn [native plain] in *.
    apply round_trips_sequence; assumption.
  - rewrite _to_tokens_eq. cbn [native plain] in *.
    apply round_trips_sequence; assumption.
  - rewrite _to_tokens_eq. cbn [native plain andb] in *.
    rewrite andb_false_r.
    apply andb_true_iff in Hn. destruct Hn as [Hk Hd].
    apply round_trips_mapping; assumption.
  - discriminate Hn.
Qed.

End RoundTrip.

(** ** Documents *)

Lemma parse_document_value (toks : list token) (a : ast) :
  value_tokens toks ->
  (forall fuel rest,
      (List.length toks <= fuel)%nat ->
      parse_val fuel (toks ++ rest) = OK (a, rest)) ->
  parse_from_tokens (toks ++ [EOF ""]) = OK (Item [] None [] a [EOF ""]).
Proof.
  intros Hv Hparse.
  assert (Hfuel : parse_val (S (List.length (toks ++ [EOF ""])))
                    (toks ++ [EOF ""]) = OK (a, [EOF ""]))
    by (apply Hparse; rewrite length_app; lia).
  unfold parse_from_tokens.
  destruct Hv as [(p & ->) | [(s & r & ->) | (s & r & ->)]];
    cbn [app span is_head_trivia] in *; rewrite Hfuel; reflexivity.
Qed.

Lemma parse_document_top_level (rs : list rendered) :
  rs <> [] ->
  Forall (parses_as MTop) rs ->
  Forall (fun r => exists q vt,
             r_toks r = TPrim q :: Colon ":" :: Space " " :: vt) rs ->
  parse_from_tokens
    (flat_map (fun t => t ++ [NL newline]) (map r_toks rs) ++ [EOF ""])
  = OK (Item [] None []
          (Cont (mkContainer KMap [] [] true true) (top_level_items rs))
          [EOF ""]).
Proof.
  intros Hne Hp Hshape.
  pose proof (parse_top_level_items rs Hp
                (S (List.length
                      (flat_map (fun t => t ++ [NL newline]) (map r_toks rs)
                       ++ [EOF ""])))
                (EOF "") [] eq_refl
                ltac:(rewrite length_app; cbn [List.length]; lia)) as Hitems.
  unfold parse_from_tokens.
  destruct rs as [| r rs']; [congruence |].
  inversion Hshape as [| ? ? (q & vt & Hr) _]; subst.
  cbn [map flat_map] in *. rewrite Hr in *.
  cbn [app span is_head_trivia] in *.
  rewrite Hitems. reflexivity.
Qed.

(** C2 (as amended).  For a native value built from strings, booleans,
    [None], integers, floats, lists, tuples and mappings whose keys are
    atomic and pairwise distinct, under any settings and either choice of
    [top_level_map]: synthesis succeeds, the parser accepts the token
    stream, and the projection of the tree is the value, up to tuples read
    back as lists. *)
Theorem synthesize_then_project {codec : Codec} (v : pyval) (s : Settings)
    (top_level_map : bool) :
  native v = true ->
  exists toks doc,
    _to_tokens v s false top_level_map = OK toks
    /\ parse_from_tokens (toks ++ [EOF ""]) = OK doc
    /\ _to_ast v s top_level_map = OK (val doc)
    /\ _python_value (val doc) = OK (plain v).
Proof.
  intros Hn.
  assert (Hvalue :
    forall toks a,
      _to_tokens v s false top_level_map = OK toks ->
      value_tokens toks ->
      (forall fuel rest,
          (List.length toks <= fuel)%nat ->
          parse_val fuel (toks ++ rest) = OK (a, rest)) ->
      _python_value a = OK (plain v) ->
      exists toks doc,
        _to_tokens v s false top_level_map = OK toks
        /\ parse_from_tokens (toks ++ [EOF ""]) = OK doc
        /\ _to_ast v s top_level_map = OK (val doc)
        /\ _python_value (val doc) = OK (plain v)).
  { intros toks a Ht Hv Hparse Hproj.
    pose proof (parse_document_value toks a Hv Hparse) as Hdoc.
    exists toks, (Item [] None [] a [EOF ""]).
    split; [assumption |]. split; [assumption |]. split; [| assumption].
    unfold _to_ast. rewrite Ht. cbn [bind]. now rewrite Hdoc. }
  destruct (native_round_trips v Hn s) as (toks & a & Ht & Hv & Hparse & Hproj).
  destruct v as [p | l | l | kvs |];
    try (apply (Hvalue toks a); try assumption;
         rewrite _to_tokens_eq in *; assumption).
  destruct (negb (match kvs with [] => true | _ :: _ => false end)
            && (top_level_map && (indent s =? 0))) eqn:Htop.
  - (* the braceless top-level form *)
    clear Hvalue toks a Ht Hv Hparse Hproj.
    cbn [native] in Hn. apply andb_true_iff in Hn. destruct Hn as [Hk Hd].
    assert (Hall : Forall
              (fun kv => (native (fst kv) = true -> round_trips (fst kv))
                         /\ (native (snd kv) = true -> round_trips (snd kv)))
              kvs)
      by (apply Forall_forall; intros kv _; split; apply native_round_trips).
    destruct (render_dict MTop kvs s ltac:(discriminate) Hall Hk)
      as (rs & Hmap & Hp & Hshape & Hv).
    assert (Hne : rs <> []).
    { destruct kvs; [discriminate Htop |].
      destruct rs; [| discriminate].
      cbn [mapM map] in Hmap.
      destruct (_map_item_tokens p s); cbn [bind] in Hmap;
        [| discriminate Hmap].
      destruct (mapM (fun kv => _map_item_tokens kv s) kvs);
        discriminate Hmap. }
    pose proof (parse_document_top_level rs Hne Hp Hshape) as Hdoc.
    assert (Ht : _to_tokens (VDict kvs) s false top_level_map
                 = OK (flat_map (fun t => t ++ [NL newline]) (map r_toks rs))).
    { rewrite _to_tokens_eq, Htop. unfold _top_level_map_tokens.
      rewrite (extend_each_mapM (fun kv => _map_item_tokens kv s)
                 (fun t => t ++ [NL newline])).
      now rewrite Hmap. }
    eexists _, _. split; [exact Ht |]. split; [exact Hdoc |]. split.
    + unfold _to_ast. rewrite Ht. cbn [bind]. now rewrite Hdoc.
    + cbn [val plain]. rewrite <- (projected_entries kvs Hk Hd).
      apply (project_map _ _ rs); [reflexivity | | assumption].
      apply top_level_items_content.
  - apply (Hvalue toks a); try assumption.
    rewrite _to_tokens_eq in *. rewrite Htop.
    cbn [andb] in Ht. now rewrite andb_false_r in Ht.
Qed.

Lemma synthesize_then_project_witness :
  native sample_value = true
  /\ exists toks doc,
       _to_tokens sample_value (mkSettings 0 true true) false true = OK toks
       /\ parse_from_tokens (toks ++ [EOF ""]) = OK doc
       /\ _to_ast sample_value (mkSettings 0 true true) true = OK (val doc)
       /\ _python_value (val doc) = OK (plain sample_value).
Proof.
  split; [reflexivity |].
  apply (synthesize_then_project (codec := sample_codec) sample_value
           (mkSettings 0 true true) true).
  reflexivity.
Defined.

(** The keys of a projected mapping are atoms. *)
Lemma python_value_dict_keys (a : ast) (kvs : list (pyval * pyval)) :
  _python_value a = OK (VDict kvs) ->
  Forall (fun kv => is_prim (fst kv) = true) kvs.
Proof.
  destruct a as [p | c items]; cbn [_python_value]; [discriminate |].
  destruct (ckind c); intros H; inv_bind H; [discriminate H |].
  injection H as <-. apply OrderedDict_keys.
Qed.

(** C2 as stated fails for a mapping keyed by a tuple: its keys are
    pairwise distinct, synthesis writes the key as a list, the parser
    rejects a container in key position, and no tree at all projects to a
    mapping with such a key, whether the key is read as a tuple or as a
    list. *)
Lemma tuple_key_counterexample :
  tuple_keyed = VDict [(VTuple [], vint 0)]
  /\ pairwise_distinct [VTuple []] = true
  /\ _to_tokens tuple_keyed Settings_DEFAULT false false
     = OK [MapStart "{"; ListStart "["; ListEnd "]"; Colon ":"; Space " ";
           int_tok 0; MapEnd "}"]
  /\ _to_ast tuple_keyed Settings_DEFAULT false = Error ParseFailure
  /\ ~ (exists a, _python_value a = OK (VDict [(VTuple [], vint 0)]))
  /\ ~ (exists a, _python_value a = OK (VDict [(VList [], vint 0)])).
Proof.
  repeat split.
  - intros (a & Ha). apply python_value_dict_keys in Ha.
    inversion Ha as [| ? ? Hk _]. discriminate Hk.
  - intros (a & Ha). apply python_value_dict_keys in Ha.
    inversion Ha as [| ? ? Hk _]. discriminate Hk.
Qed.

(** * Further properties of the edit algebra *)

(** ** Set as a path-copying update *)

Lemma position_nth {A : Type} (l : list A) (i : pyval) (p : nat) :
  position (List.length l) i = OK p -> exists x, nth_error l p = Some x.
Proof.
  intros H. apply position_lt in H.
  destruct (nth_error l p) as [x |] eqn:E; [eauto |].
  apply nth_error_None in E. lia.
Qed.

Lemma modify_set_cb_equation {codec : Codec} (v : pyval)
    (chain : list pyval) (obj : item) :
  chain <> [] ->
  _modify_items (_set_cb v) obj chain
  = (ps <- resolve obj chain ;;
     a <- _to_ast v Settings_DEFAULT false ;;
     OK (update_at (fun it => set_val it a) obj ps)).
Proof.
  revert obj; induction chain as [| k rest IH]; intros obj Hne;
    [congruence |].
  cbn [_modify_items resolve]. unfold locate.
  destruct (val obj) as [q | c items] eqn:Hv; [reflexivity |].
  destruct (_key_index (Cont c items) k) as [i | e]; cbn [bind ast_items];
    [| reflexivity].
  destruct (position (List.length items) i) as [p | e] eqn:Hp; cbn [bind].
  - destruct (position_nth items i p Hp) as (target & Ht). rewrite Ht.
    destruct rest as [| k' rest'].
    + unfold _set_cb, getitem, _replace_val, setitem.
      rewrite Hv. cbn [bind ast_items]. rewrite Hp. cbn [bind]. rewrite Ht.
      cbn [bind resolve].
      destruct (_to_ast v Settings_DEFAULT false) as [a | e]; cbn [bind];
        [| reflexivity].
      cbn [replace_items update_at]. now rewrite Hv, Ht.
    + unfold getitem, setitem. rewrite Hp. cbn [bind]. rewrite Ht.
      cbn [bind]. rewrite IH by discriminate.
      destruct (resolve target (k' :: rest')) as [ps | e]; cbn [bind];
        [| reflexivity].
      destruct (_to_ast v Settings_DEFAULT false) as [a | e]; cbn [bind];
        [| reflexivity].
      cbn [replace_items update_at]. now rewrite Hv, Ht.
  - destruct rest as [| k' rest']; unfold _set_cb, getitem;
      rewrite ?Hv; cbn [bind ast_items]; rewrite Hp; reflexivity.
Qed.

Lemma set_equation {codec : Codec} (root : item) (chain : list pyval)
    (v : pyval) :
  _set root chain v
  = (ps <- resolve root chain ;;
     a <- _to_ast v Settings_DEFAULT false ;;
     OK (update_at (fun it => set_val it a) root ps)).
Proof.
  destruct chain as [| k rest].
  - reflexivity.
  - cbn [_set]. apply modify_set_cb_equation. discriminate.
Qed.

(** X1.  [_set] is: resolve the chain to positions, synthesize and re-parse
    the new value, and rebuild the containers along those positions around
    the item whose [val] is replaced; it raises what the first of these
    steps to fail raises, the empty chain included. *)
Theorem set_is_resolve_then_update {codec : Codec} (root : item)
    (chain : list pyval) (v : pyval) :
  _set root chain v
  = (ps <- resolve root chain ;;
     a <- _to_ast v Settings_DEFAULT false ;;
     OK (update_at (fun it => set_val it a) root ps)).
Proof. apply set_equation. Qed.

Lemma list_set_twice {A : Type} (l : list A) (p : nat) (x y : A) :
  list_set (list_set l p x) p y = list_set l p y.
Proof.
  revert p; induction l as [| a l IH]; intros [| p]; cbn; try reflexivity.
  now rewrite IH.
Qed.

(** A second update at the same position that forgets what the first one
    wrote. *)
Lemma update_at_twice (f g : item -> item) (ps : list nat) (obj : item) :
  (forall x, g (f x) = g x) ->
  update_at g (update_at f obj ps) ps = update_at g obj ps.
Proof.
  intros Hgf. revert obj; induction ps as [| p ps IH]; intros obj.
  - apply Hgf.
  - cbn [update_at].
    destruct (val obj) as [q | c items] eqn:Hv; [now rewrite Hv |].
    destruct (nth_error items p) as [target |] eqn:Ht;
      [| now rewrite Hv, Ht].
    cbn [val set_val].
    rewrite nth_error_list_set_eq by (eapply nth_error_lt; eassumption).
    rewrite list_set_twice, IH. reflexivity.
Qed.

(** X2.  Of two sets at the same path the last one wins: after a
    successful set, setting the same path again gives what setting it on
    the original document gives, the same exception included. *)
Theorem set_twice_last_wins {codec : Codec} (root root1 : item)
    (chain : list pyval) (v1 v2 : pyval) :
  _set root chain v1 = OK root1 ->
  _set root1 chain v2 = _set root chain v2.
Proof.
  rewrite !set_equation. intros H.
  destruct (resolve root chain) as [ps | e] eqn:Hr; [| discriminate H].
  cbn [bind] in *.
  destruct (_to_ast v1 Settings_DEFAULT false) as [a1 | e]; [| discriminate H].
  cbn [bind] in H. injection H as <-.
  rewrite (resolve_update_at (fun it => set_val it a1) (fun x => eq_refl)
             ps chain root ps Hr (strictly_below_self ps)).
  cbn [bind].
  destruct (_to_ast v2 Settings_DEFAULT false) as [a2 | e]; [| reflexivity].
  cbn [bind]. f_equal.
  apply (update_at_twice (fun it => set_val it a1) (fun it => set_val it a2)).
  reflexivity.
Qed.

Lemma set_twice_last_wins_witness :
  _set nested_doc_b9 [vstr "a"; vstr "b"] (vint 1)
  = _set nested_doc [vstr "a"; vstr "b"] (vint 1).
Proof.
  apply (set_twice_last_wins (codec := sample_codec) nested_doc nested_doc_b9
           [vstr "a"; vstr "b"] (vint 9) (vint 1)).
  reflexivity.
Defined.

(** X3.  What is set is what is read back: after a successful set at any
    path, the empty one included, [_get] at that path returns an item
    whose [val] is the synthesized and re-parsed new value, with the head,
    tail and key of the item that was there, and [python_value] there is
    the projection of that node. *)
Theorem set_then_get {codec : Codec} (root root' : item)
    (chain : list pyval) (v : pyval) :
  _set root chain v = OK root' ->
  exists old a,
    _get root chain = OK old
    /\ _to_ast v Settings_DEFAULT false = OK a
    /\ _get root' chain = OK (set_val old a)
    /\ project_at root' chain = _python_value a.
Proof.
  rewrite set_equation. intros H.
  destruct (resolve root chain) as [ps | e] eqn:Hr; [| discriminate H].
  cbn [bind] in H.
  destruct (_to_ast v Settings_DEFAULT false) as [a | e]; [| discriminate H].
  cbn [bind] in H. injection H as <-.
  destruct (resolve_item_at chain root ps Hr) as (old & Hold).
  assert (Hget : _get (update_at (fun it => set_val it a) root ps) chain
                 = OK (set_val old a)).
  { rewrite get_resolve.
    rewrite (resolve_update_at (fun it => set_val it a) (fun x => eq_refl)
               ps chain root ps Hr (strictly_below_self ps)).
    cbn [bind].
    now rewrite (item_at_update_at_same (fun it => set_val it a) ps root old
                   Hold). }
  exists old, a. split; [| split; [reflexivity | split; [exact Hget |]]].
  - rewrite get_resolve, Hr. cbn [bind]. now rewrite Hold.
  - unfold project_at. rewrite Hget. reflexivity.
Qed.

Lemma set_then_get_witness :
  exists old a,
    _get nested_doc [vstr "a"; vstr "b"] = OK old
    /\ _to_ast (vint 9) Settings_DEFAULT false = OK a
    /\ _get nested_doc_b9 [vstr "a"; vstr "b"] = OK (set_val old a)
    /\ project_at nested_doc_b9 [vstr "a"; vstr "b"] = _python_value a.
Proof.
  apply (set_then_get (codec := sample_codec) nested_doc nested_doc_b9
           [vstr "a"; vstr "b"] (vint 9)).
  reflexivity.
Defined.

(** ** Paths compose *)

Lemma get_app_eq (p q : list pyval) (obj : item) :
  _get obj (p ++ q) = (it <- _get obj p ;; _get it q).
Proof.
  revert obj; induction p as [| k rest IH]; intros obj; [reflexivity |].
  change ((k :: rest) ++ q) with (k :: (rest ++ q)).
  cbn [_get].
  destruct (_key_index (val obj) k) as [i | e]; cbn [bind]; [| reflexivity].
  destruct (ast_items (val obj)) as [items | e]; cbn [bind]; [| reflexivity].
  destruct (getitem items i) as [target | e]; cbn [bind]; [| reflexivity].
  rewrite !get_nil_or_rest. apply IH.
Qed.

(** X4.  Reading along a path made of two parts is reading along the
    first part and then, from the item found, along the second: a child
    view of a view reads what the longer chain reads from the root. *)
Theorem get_composes (p q : list pyval) (obj : item) :
  _get obj (p ++ q) = (it <- _get obj p ;; _get it q).
Proof. apply get_app_eq. Qed.

(** ** What a mutation does at the parent of the terminal item *)

Section ModifyItemsParent.
Variable items_cb : item -> pyval -> result (list item).

Lemma modify_items_cons (k : pyval) (chain : list pyval) (obj : item) :
  chain <> [] ->
  _modify_items items_cb obj (k :: chain)
  = (i <- _key_index (val obj) k ;;
     new_items <-
       (items <- ast_items (val obj) ;;
        target <- getitem items i ;;
        new_target <- _modify_items items_cb target chain ;;
        setitem items i new_target) ;;
     new_val <- replace_items (val obj) new_items ;;
     OK (set_val obj new_val)).
Proof. destruct chain; [congruence | reflexivity]. Qed.

(** A successful [_modify_items] has resolved the chain up to the parent
    of the terminal item, called the callback there, and rebuilt the
    containers above the parent around its new items. *)
Lemma modify_items_parent (prefix : list pyval) (k : pyval)
    (obj root' : item) :
  _modify_items items_cb obj (prefix ++ [k]) = OK root' ->
  exists ps parent i new_items new_val,
    resolve obj prefix = OK ps
    /\ item_at obj ps = Some parent
    /\ _key_index (val parent) k = OK i
    /\ items_cb parent i = OK new_items
    /\ replace_items (val parent) new_items = OK new_val
    /\ root' = update_at (fun it => set_val it new_val) obj ps.
Proof.
  revert obj root'; induction prefix as [| k0 rest IH]; intros obj root' H.
  - cbn [app _modify_items] in H.
    inv_bind H. rename x into i. inv_bind H. rename x into new_items.
    inv_bind H. rename x into new_val. injection H as <-.
    exists [], obj, i, new_items, new_val. repeat split; assumption.
  - change ((k0 :: rest) ++ [k]) with (k0 :: (rest ++ [k])) in H.
    rewrite modify_items_cons in H by (now destruct rest).
    inv_bind H. rename x into i0, Hx into Hi0.
    inv_bind H. rename x into new_items0, Hx into Hnew.
    inv_bind H. rename x into new_val0, Hx into Hrep. injection H as <-.
    destruct (val obj) as [q | c items] eqn:Hv; [discriminate Hnew |].
    cbn [bind ast_items replace_items] in *.
    inv_bind Hnew. rename x into target.
    apply getitem_inv in Hx. destruct Hx as (p & Hp & Ht).
    inv_bind Hnew. rename x into new_target.
    unfold setitem in Hnew. rewrite Hp in Hnew. cbn [bind] in Hnew.
    injection Hnew as <-. injection Hrep as <-.
    destruct (IH _ _ Hx)
      as (ps & parent & i & new_items & new_val & Hr & Hpar & Hi & Hcb
          & Hrepl & ->).
    exists (p :: ps), parent, i, new_items, new_val.
    cbn [resolve item_at update_at]. unfold locate.
    rewrite Hv, Hi0. cbn [bind ast_items]. rewrite Hp. cbn [bind].
    rewrite Ht, Hr. cbn [bind]. repeat split; assumption.
Qed.
End ModifyItemsParent.

Lemma delete_cb_length (obj : item) (i : pyval) (new_items : list item)
    (c : container) (items : list item) :
  val obj = Cont c items ->
  _delete_cb obj i = OK new_items ->
  S (List.length new_items) = List.length items.
Proof.
  intros Hv H. destruct (delete_cb_content obj i new_items H)
    as (c' & items' & p & Hv' & Hp & Hmap).
  rewrite Hv in Hv'. injection Hv' as <- <-.
  apply (f_equal (@List.length _)) in Hmap. rewrite !length_map in Hmap.
  rewrite Hmap. apply position_lt in Hp.
  rewrite list_del_length by assumption. lia.
Qed.

(** X5.  A successful delete shrinks the parent by exactly one item: the
    chain without its last segment resolves to the parent, whose items
    afterwards are one fewer and hold, in the same order, the keys and
    values of the original items without the one the last segment
    addresses; the containers above are rebuilt around it and the parent
    keeps its own head, tail and key. *)
Theorem delete_shrinks_by_one (root root' : item) (prefix : list pyval)
    (k : pyval) :
  _delete root (prefix ++ [k]) = OK root' ->
  exists ps parent c items p new_items,
    resolve root prefix = OK ps
    /\ item_at root ps = Some parent
    /\ val parent = Cont c items
    /\ locate (val parent) k = OK p
    /\ item_at root' ps = Some (set_val parent (Cont c new_items))
    /\ S (List.length new_items) = List.length items
    /\ map item_content new_items = map item_content (list_del items p).
Proof.
  unfold _delete. intros H.
  destruct (modify_items_parent _delete_cb prefix k root root' H)
    as (ps & parent & i & new_items & new_val & Hr & Hpar & Hi & Hcb & Hrep
        & ->).
  destruct (delete_cb_content parent i new_items Hcb)
    as (c & items & p & Hv & Hp & Hmap).
  exists ps, parent, c, items, p, new_items.
  rewrite Hv in Hrep. cbn [replace_items] in Hrep. injection Hrep as <-.
  split; [assumption |]. split; [assumption |]. split; [assumption |].
  split; [| split; [| split]].
  - unfold locate. rewrite Hv in *. rewrite Hi. cbn [bind ast_items].
    assumption.
  - exact (item_at_update_at_same
             (fun it => set_val it (Cont c new_items)) ps root parent Hpar).
  - exact (delete_cb_length parent i new_items c items Hv Hcb).
  - assumption.
Qed.

Lemma delete_shrinks_by_one_witness :
  exists root',
    _delete two_entries_doc ([] ++ [vstr "a"]) = OK root'
    /\ exists ps parent c items p new_items,
         resolve two_entries_doc [] = OK ps
         /\ item_at two_entries_doc ps = Some parent
         /\ val parent = Cont c items
         /\ locate (val parent) (vstr "a") = OK p
         /\ item_at root' ps = Some (set_val parent (Cont c new_items))
         /\ S (List.length new_items) = List.length items
         /\ map item_content new_items = map item_content (list_del items p).
Proof.
  eexists. split; [reflexivity |].
  apply (delete_shrinks_by_one two_entries_doc _ [] (vstr "a")).
  reflexivity.
Defined.

(** ** Lookup in a Map *)

Lemma find_key_first_match (items : list item) (k : pyval) (z i : Z) :
  find_key items k z = OK i <->
  exists p, i = z + Z.of_nat p /\ first_match items k p.
Proof.
  revert z; induction items as [| it items IH]; intros z; cbn [find_key].
  - split; [discriminate |].
    intros (p & _ & (x & q & Hx & _) & _). now destruct p.
  - destruct (key it) as [q |] eqn:Hk.
    + destruct (prim_eq_val (pval q) k) eqn:Heq.
      * split.
        -- intros H. injection H as <-. exists 0%nat. split; [lia |].
           split; [exists it, q; repeat split; assumption |].
           intros j Hj. lia.
        -- intros (p & -> & (x & q' & Hx & Hq & Hm) & Hbefore).
           destruct p as [| p]; [f_equal; lia |].
           destruct (Hbefore 0%nat ltac:(lia)) as (x0 & q0 & H0 & Hk0 & Hne).
           cbn in H0. injection H0 as <-. congruence.
      * rewrite IH. split.
        -- intros (p & -> & (x & q' & Hx & Hq & Hm) & Hbefore).
           exists (S p). split; [lia |].
           split; [exists x, q'; repeat split; assumption |].
           intros [| j] Hj; [exists it, q; repeat split; assumption |].
           apply (Hbefore j). lia.
        -- intros (p & -> & (x & q' & Hx & Hq & Hm) & Hbefore).
           destruct p as [| p].
           ++ cbn in Hx. injection Hx as <-. congruence.
           ++ exists p. split; [lia |].
              split; [exists x, q'; repeat split; assumption |].
              intros j Hj. apply (Hbefore (S j)). lia.
    + split; [discriminate |].
      intros (p & _ & (x & q' & Hx & Hq & Hm) & Hbefore).
      destruct p as [| p].
      * cbn in Hx. injection Hx as <-. congruence.
      * destruct (Hbefore 0%nat ltac:(lia)) as (x0 & q0 & H0 & Hk0 & _).
        cbn in H0. injection H0 as <-. congruence.
Qed.

(** X6.  In a Map, [_key_index] returns exactly the index of the first
    item whose key equals the key looked up, the items before it all
    carrying keys that differ; with a repeated key the first item wins. *)
Theorem key_index_finds_first (c : container) (items : list item)
    (k : pyval) (i : pyval) :
  ckind c = KMap ->
  (_key_index (Cont c items) k = OK i
   <-> exists p, i = idx p /\ first_match items k p).
Proof.
  intros Hc. cbn [_key_index]. rewrite Hc. split.
  - intros H. inv_bind H. injection H as <-.
    apply find_key_first_match in Hx. destruct Hx as (p & -> & Hp).
    exists p. split; [reflexivity | assumption].
  - intros (p & -> & Hp).
    assert (H : find_key items k 0 = OK (0 + Z.of_nat p))
      by (apply find_key_first_match; eauto).
    rewrite H. reflexivity.
Qed.

Lemma key_index_finds_first_witness :
  _key_index (Cont braces repeated_key_items) (vstr "a") = OK (idx 0)
  <-> exists p, idx 0 = idx p /\ first_match repeated_key_items (vstr "a") p.
Proof.
  apply (key_index_finds_first braces repeated_key_items (vstr "a") (idx 0)).
  reflexivity.
Defined.

(** ** Delete in an inline container *)

(** X7.  Deleting the last of two or more items of a container that is
    not multiline by its non-negative index (an [int] or a [bool]; every
    key of a Map is addressed so) removes it and empties the tail of the
    item before it, which is the new last item; no other item changes.
    Addressed as [-1], the item is removed as well, but the item before it
    keeps its tail: the test for the last item compares the raw index. *)
Theorem delete_last_inline_strips_tail (obj : item) (c : container)
    (items : list item) (n : nat) (prev last : item) (k : pyval) :
  val obj = Cont c items ->
  is_multiline c = false ->
  List.length items = S (S n) ->
  nth_error items n = Some prev ->
  nth_error items (S n) = Some last ->
  (as_index k = OK (Z.of_nat (S n)) ->
   _delete_cb obj k
   = OK (list_set (list_del items (S n)) n (set_tail prev [])))
  /\ (as_index k = OK (-1) ->
      _delete_cb obj k = OK (list_del items (S n))).
Proof.
  intros Hv Hml Hlen Hprev Hlast.
  assert (Hdl : List.length (list_del items (S n)) = S n)
    by (rewrite list_del_length by lia; lia).
  split; intros Hk; rewrite (delete_cb_as_index obj k _ Hk); clear Hk k.
  - fold (idx (S n)).
    assert (Hprev' : nth_error (list_del items (S n)) n = Some prev)
      by (rewrite nth_error_list_del_lt by lia; assumption).
    assert (Hpos : position (List.length (list_del items (S n)))
                     (VPrim (PInt (-1))) = OK n).
    { rewrite (position_negative _ (-1)) by lia. f_equal. lia. }
    unfold _delete_cb. rewrite Hv; cbn [bind ast_items node_flag].
    rewrite (getitem_idx _ _ _ Hlast); cbn [bind].
    rewrite delitem_idx by lia; cbn [bind as_index idx].
    rewrite Hml, Hlen.
    rewrite is_nil_false_length by lia. rewrite andb_false_r.
    replace (Z.of_nat (S (S n)) =? Z.of_nat (S n) + 1) with true
      by (symmetry; apply Z.eqb_eq; lia).
    cbn [negb andb].
    unfold getitem, setitem. rewrite Hpos. cbn [bind]. rewrite Hprev'.
    reflexivity.
  - assert (Hpos : position (List.length items) (VPrim (PInt (-1)))
                   = OK (S n)).
    { rewrite (position_negative _ (-1)) by lia. f_equal. lia. }
    unfold _delete_cb. rewrite Hv; cbn [bind ast_items node_flag].
    rewrite (getitem_position _ _ _ _ Hpos Hlast); cbn [bind].
    unfold delitem. rewrite Hpos; cbn [bind as_index].
    rewrite Hml, Hlen.
    rewrite is_nil_false_length by lia. rewrite andb_false_r.
    replace (Z.of_nat (S (S n)) =? -1 + 1) with false
      by (symmetry; apply Z.eqb_neq; lia).
    reflexivity.
Qed.

Lemma delete_last_inline_strips_tail_witness :
  _delete_cb (doc_of (Cont brackets inline_triple)) (idx 2)
  = OK [list_item [] (int_node 1) [Comma ","; Space " "];
        list_item [] (int_node 2) []]
  /\ _delete_cb (doc_of (Cont brackets inline_triple)) (VPrim (PInt (-1)))
     = OK [list_item [] (int_node 1) [Comma ","; Space " "];
           list_item [] (int_node 2) [Comma ","; Space " "]].
Proof.
  split;
    [refine (proj1 (delete_last_inline_strips_tail
                      (doc_of (Cont brackets inline_triple))
                      brackets inline_triple 1
                      (list_item [] (int_node 2) [Comma ","; Space " "])
                      (list_item [] (int_node 3) []) (idx 2)
                      _ _ _ _ _) _)
    | refine (proj2 (delete_last_inline_strips_tail
                       (doc_of (Cont brackets inline_triple))
                       brackets inline_triple 1
                       (list_item [] (int_node 2) [Comma ","; Space " "])
                       (list_item [] (int_node 3) []) (VPrim (PInt (-1)))
                       _ _ _ _ _) _)];
    reflexivity.
Defined.

(** X8.  Deleting the only item of a container that is neither multiline
    nor top-level style raises [IndexError] when the item is addressed by
    index [0], as every key of a Map is: the fix-up for the new last item
    subscripts the emptied list. *)
Theorem delete_only_inline_item_fails (obj : item) (c : container)
    (it : item) (k : pyval) :
  val obj = Cont c [it] ->
  is_multiline c = false ->
  is_top_level_style c = false ->
  _key_index (val obj) k = OK (idx 0) ->
  _delete obj [k] = Error IndexOutOfRange
  /\ exc_class IndexOutOfRange = IndexError.
Proof.
  intros Hv Hml Htop Hk. split; [| reflexivity].
  unfold _delete. cbn [_modify_items]. rewrite Hk. cbn [bind].
  unfold _delete_cb. rewrite Hv. cbn [bind ast_items node_flag].
  rewrite Hml, Htop. reflexivity.
Qed.

Lemma delete_only_inline_item_fails_witness :
  _delete
    (doc_of (Cont braces [map_item [] (word_key "a") (int_node 1) []]))
    [vstr "a"]
  = Error IndexOutOfRange
  /\ exc_class IndexOutOfRange = IndexError.
Proof.
  apply (delete_only_inline_item_fails
           (doc_of (Cont braces [map_item [] (word_key "a") (int_node 1) []]))
           braces (map_item [] (word_key "a") (int_node 1) []) (vstr "a"));
    reflexivity.
Defined.

(** ** Delete and the projection *)

Lemma mapM_list_del {A B : Type} (f : A -> result B) (l : list A)
    (ys : list B) (p : nat) :
  mapM f l = OK ys -> mapM f (list_del l p) = OK (list_del ys p).
Proof.
  revert ys p; induction l as [| a l IH]; intros ys p H; cbn [mapM] in H.
  - injection H as <-. now destruct p.
  - inv_bind H. inv_bind H. injection H as <-.
    destruct p as [| p]; cbn [list_del mapM]; [assumption |].
    now rewrite Hx, (IH _ p Hx0).
Qed.

(** X9.  Deleting an element of a list deletes it from the list's value:
    when the parent of the deleted item is a List that projects to [l],
    after a successful delete the same path projects to [l] without the
    element at the position the index addresses (negative indices counted
    from the end). *)
Theorem delete_removes_list_element (root root' parent : item)
    (prefix : list pyval) (k : pyval) (c : container) (items : list item)
    (l : list pyval) :
  _delete root (prefix ++ [k]) = OK root' ->
  _get root prefix = OK parent ->
  val parent = Cont c items ->
  ckind c = KList ->
  project_at root prefix = OK (VList l) ->
  exists p,
    position (List.length items) k = OK p
    /\ List.length l = List.length items
    /\ project_at root' prefix = OK (VList (list_del l p)).
Proof.
  unfold _delete. intros H Hget Hv Hc Hproj.
  destruct (modify_items_parent _delete_cb prefix k root root' H)
    as (ps & parent' & i & new_items & new_val & Hr & Hpar & Hi & Hcb & Hrep
        & ->).
  assert (parent' = parent) as ->.
  { rewrite get_resolve, Hr in Hget. cbn [bind] in Hget.
    rewrite Hpar in Hget. now injection Hget. }
  destruct (delete_cb_content parent i new_items Hcb)
    as (c' & items' & p & Hv' & Hp & Hmap).
  rewrite Hv in Hv'. injection Hv' as <- <-.
  rewrite Hv in Hi, Hrep. cbn [_key_index replace_items] in Hi, Hrep.
  rewrite Hc in Hi. injection Hi as <-. injection Hrep as <-.
  unfold project_at in Hproj. rewrite Hget in Hproj. cbn [bind] in Hproj.
  rewrite Hv in Hproj. cbn [_python_value] in Hproj. rewrite Hc in Hproj.
  inv_bind Hproj. injection Hproj as <-.
  exists p. split; [assumption |]. split.
  - clear - Hx. revert x Hx. induction items as [| a items IH];
      intros x Hx; cbn [mapM] in Hx.
    + now injection Hx as <-.
    + inv_bind Hx. inv_bind Hx. injection Hx as <-. cbn. f_equal.
      now apply IH.
  - unfold project_at. rewrite get_resolve.
    rewrite (resolve_update_at (fun it => set_val it (Cont c new_items))
               (fun x => eq_refl) ps prefix root ps Hr
               (strictly_below_self ps)).
    cbn [bind].
    rewrite (item_at_update_at_same
               (fun it => set_val it (Cont c new_items)) ps root parent Hpar).
    cbn [bind val set_val].
    rewrite (python_value_content c new_items (list_del items p) Hmap).
    cbn [_python_value]. rewrite Hc.
    now rewrite (mapM_list_del _ items x p Hx).
Qed.

Lemma delete_removes_list_element_witness :
  _delete list_entry_doc ([vstr "a"] ++ [vint (-1)]) = OK list_entry_deleted
  /\ exists p,
       position 2 (vint (-1)) = OK p
       /\ List.length [vint 1; vint 2] = 2%nat
       /\ project_at list_entry_deleted [vstr "a"]
          = OK (VList (list_del [vint 1; vint 2] p)).
Proof.
  split; [reflexivity |].
  refine (delete_removes_list_element list_entry_doc list_entry_deleted _
            [vstr "a"] (vint (-1)) _ _ [vint 1; vint 2]
            eq_refl eq_refl eq_refl eq_refl eq_refl).
Defined.

(** * Further properties of the synthesizer *)

Lemma mapM_Forall {A B : Type} (f : A -> result B) (Q : B -> Prop)
    (l : list A) (ys : list B) :
  Forall (fun x => forall y, f x = OK y -> Q y) l ->
  mapM f l = OK ys ->
  Forall Q ys.
Proof.
  intros Hl; revert ys; induction Hl as [| a l Ha _ IH]; intros ys H;
    cbn [mapM] in H.
  - injection H as <-. constructor.
  - inv_bind H. inv_bind H. injection H as <-.
    constructor; [now apply Ha | now apply IH].
Qed.

Lemma Forall_flat_map_tokens {A : Type} (Q : token -> Prop)
    (w : A -> list token) (l : list A) :
  Forall (fun x => Forall Q (w x)) l -> Forall Q (flat_map w l).
Proof.
  induction 1 as [| a l Ha _ IH]; cbn [flat_map]; [constructor |].
  apply Forall_app. split; assumption.
Qed.

(** ** A property of every token the synthesizer emits *)

Section TokenInvariant.
Context {codec : Codec}.
Variable Q : token -> Prop.
Variable ok : Settings -> Prop.

Hypothesis Q_prim : forall p, Q (TPrim p).
Hypothesis Q_comma : Q (Comma ",").
Hypothesis Q_space : Q (Space " ").
Hypothesis Q_colon : Q (Colon ":").
Hypothesis Q_brackets :
  Q (ListStart "[") /\ Q (ListEnd "]") /\ Q (MapStart "{") /\ Q (MapEnd "}").
Hypothesis Q_multiline :
  forall s, ok s -> 0 <= indent s ->
    Q (NL newline)
    /\ Q (Indent (spaces (4 * Z.to_nat (indent s + 1))))
    /\ (0 < indent s -> Q (Indent (spaces (4 * Z.to_nat (indent s))))).
Hypothesis ok_deeper : forall s, ok s -> 0 <= indent s -> ok (deeper s).

Lemma comma_separated_invariant (rendered : list (list token)) :
  Forall (Forall Q) rendered -> Forall Q (comma_separated rendered).
Proof.
  intros Hr. destruct rendered as [| y ys]; [constructor |].
  rewrite comma_separated_cons. inversion Hr as [| ? ? Hy Hys]; subst.
  apply Forall_app. split; [assumption |].
  apply Forall_flat_map_tokens.
  eapply Forall_impl; [| exact Hys]. intros ts Hts.
  constructor; [exact Q_comma |]. constructor; [exact Q_space | exact Hts].
Qed.

Lemma container_tokens_invariant {V A : Type} (v : V) (s : Settings)
    (cs : ContainerSettings V A) (toks : list token) :
  ok s ->
  Q (start cs) -> Q (end_ cs) ->
  Forall (fun x => forall s' y, ok s' -> item_func cs x s' = OK y ->
                   Forall Q y) (to_iter cs v) ->
  _container v s cs = OK toks ->
  Forall Q toks.
Proof.
  intros Hok Hst Hen Hitems H. rewrite container_unfold in H.
  assert (Hinline :
    forall rendered,
      mapM (fun y => item_func cs y s) (to_iter cs v) = OK rendered ->
      Forall Q (inline_layout (start cs) (end_ cs) rendered)).
  { intros rendered Hm. unfold inline_layout.
    assert (Hr : Forall (Forall Q) rendered).
    { apply (mapM_Forall (fun y => item_func cs y s) (Forall Q)
               (to_iter cs v)); [| assumption].
      eapply Forall_impl; [| exact Hitems].
      intros a Ha y Hy. now apply (Ha s y). }
    apply Forall_app. split; [constructor; [assumption | constructor] |].
    apply Forall_app. split; [now apply comma_separated_invariant |].
    constructor; [assumption | constructor]. }
  unfold renders_inline in H.
  destruct (Z.ltb_spec (indent s) 0) as [Hneg | Hpos]; cbn [orb] in H.
  - inv_bind H. injection H as <-. now apply Hinline.
  - destruct ((List.length (to_iter cs v) =? 0)%nat
              || inline_small_containers s
                 && (List.length (to_iter cs v) <? 2)%nat).
    + inv_bind H. injection H as <-. now apply Hinline.
    + inv_bind H. injection H as <-. unfold multiline_layout.
      destruct (Q_multiline s Hok Hpos) as (Hnl & Hind & Hclose).
      assert (Hr : Forall (Forall Q) x).
      { apply (mapM_Forall (fun y => item_func cs y (deeper s)) (Forall Q)
                 (to_iter cs v)); [| assumption].
        eapply Forall_impl; [| exact Hitems].
        intros a Ha y Hy. apply (Ha (deeper s) y); [| assumption].
        now apply ok_deeper. }
      apply Forall_app. split;
        [constructor; [assumption | constructor; [assumption | constructor]]
        |].
      apply Forall_app. split.
      * apply Forall_flat_map_tokens.
        eapply Forall_impl; [| exact Hr]. intros ts Hts.
        apply Forall_app. split; [constructor; [assumption | constructor] |].
        apply Forall_app. split; [assumption |].
        constructor; [exact Q_comma |].
        constructor; [assumption | constructor].
      * apply Forall_app. split.
        -- destruct (Z.ltb_spec 0 (indent s)); [| constructor].
           constructor; [now apply Hclose | constructor].
        -- constructor; [assumption | constructor].
Qed.

Hypothesis Q_top_level : forall s, ok s -> indent s = 0 -> Q (NL newline).

Lemma to_tokens_invariant (v : pyval) :
  forall s k tlm toks,
    ok s -> _to_tokens v s k tlm = OK toks -> Forall Q toks.
Proof.
  destruct Q_brackets as (Hls & Hle & Hms & Hme).
  induction v as [p | l IH | l IH | kvs IH |] using pyval_nested_ind;
    intros s k tlm toks Hok H; rewrite _to_tokens_eq in H.
  - destruct p as [str | b | | z | f];
      try (injection H as <-; repeat constructor; apply Q_prim).
    destruct (bare_keys s && k && BARE_WORD_FULL_MATCH str);
      injection H as <-; repeat constructor; apply Q_prim.
  - apply (container_tokens_invariant l s list_container_settings toks);
      try assumption.
    cbn [to_iter item_func list_container_settings].
    eapply Forall_impl; [| exact IH]. intros a Ha s' y Hs' Hy.
    exact (Ha s' false false y Hs' Hy).
  - apply (container_tokens_invariant l s list_container_settings toks);
      try assumption.
    cbn [to_iter item_func list_container_settings].
    eapply Forall_impl; [| exact IH]. intros a Ha s' y Hs' Hy.
    exact (Ha s' false false y Hs' Hy).
  - assert (Hitem : Forall
              (fun kv => forall s' y, ok s' ->
                         _map_item_tokens kv s' = OK y -> Forall Q y) kvs).
    { eapply Forall_impl; [| exact IH].
      intros [a b] [Ha Hb] s' y Hs' Hy. cbn [fst snd] in *.
      cbn [_map_item_tokens] in Hy. inv_bind Hy. inv_bind Hy.
      injection Hy as <-.
      apply Forall_app. split; [exact (Ha s' true false x Hs' Hx) |].
      constructor; [exact Q_colon |]. constructor; [exact Q_space |].
      exact (Hb s' false false x0 Hs' Hx0). }
    destruct (negb (match kvs with [] => true | _ :: _ => false end)
              && (tlm && (indent s =? 0))) eqn:Htop.
    + apply andb_true_iff in Htop. destruct Htop as [_ Htop].
      apply andb_true_iff in Htop. destruct Htop as [_ Hz].
      apply Z.eqb_eq in Hz.
      unfold _top_level_map_tokens in H.
      rewrite (extend_each_mapM (fun kv => _map_item_tokens kv s)
                 (fun t => t ++ [NL newline])) in H.
      inv_bind H. injection H as <-.
      apply Forall_flat_map_tokens.
      assert (Hr : Forall (Forall Q) x).
      { apply (mapM_Forall (fun kv => _map_item_tokens kv s) (Forall Q) kvs);
          [| assumption].
        eapply Forall_impl; [| exact Hitem].
        intros a Ha y Hy. now apply (Ha s y). }
      eapply Forall_impl; [| exact Hr]. intros ts Hts.
      apply Forall_app. split; [assumption |].
      constructor; [| constructor]. now apply (Q_top_level s).
    + apply (container_tokens_invariant kvs s map_container_settings toks);
        assumption.
  - discriminate H.
Qed.

End TokenInvariant.

(** X10.  With [indent < 0] (as [dumps(indented=False)] and every edit
    synthesize), no newline and no indent token is emitted, whatever the
    value and the other settings: the output is laid out on one line. *)
Theorem inline_settings_emit_no_layout {codec : Codec} (v : pyval)
    (s : Settings) (k tlm : bool) (toks : list token) :
  indent s < 0 ->
  _to_tokens v s k tlm = OK toks ->
  Forall (fun t => is_layout t = false) toks.
Proof.
  intros Hneg H.
  apply (to_tokens_invariant (fun t => is_layout t = false)
           (fun s' => indent s' < 0)) with (v := v) (s := s) (k := k)
           (tlm := tlm); try assumption; try reflexivity.
  - repeat split.
  - intros s' Hs' Hpos. lia.
  - intros s' Hs' Hpos. lia.
  - intros s' Hs' Hz. lia.
Qed.

Lemma inline_settings_emit_no_layout_witness :
  Forall (fun t => is_layout t = false) nested_value_inline_tokens.
Proof.
  apply (inline_settings_emit_no_layout (codec := sample_codec) nested_value
           Settings_DEFAULT false false nested_value_inline_tokens).
  - reflexivity.
  - reflexivity.
Defined.

(** X11.  Every indent token the synthesizer emits is a positive number
    of four-space units: no empty indent token is ever written, under any
    settings and at any depth. *)
Theorem indents_are_four_space_units {codec : Codec} (v : pyval)
    (s : Settings) (k tlm : bool) (toks : list token) :
  _to_tokens v s k tlm = OK toks ->
  Forall indent_ok toks.
Proof.
  intros H.
  apply (to_tokens_invariant indent_ok (fun _ => True)) with (v := v)
           (s := s) (k := k) (tlm := tlm); try assumption;
    try exact I; try (intros; exact I).
  - repeat split.
  - intros s' _ Hpos. split; [exact I |]. split.
    + exists (Z.to_nat (indent s' + 1)). split; [lia | reflexivity].
    + intros Hlt. exists (Z.to_nat (indent s')). split; [lia | reflexivity].
Qed.

Lemma indents_are_four_space_units_witness :
  Forall indent_ok nested_value_tokens.
Proof.
  apply (indents_are_four_space_units (codec := sample_codec) nested_value
           (mkSettings 0 true true) false true nested_value_tokens).
  reflexivity.
Defined.

(** ** When synthesis fails *)

Section SynthesisOutcome.
Context {codec : Codec}.




End SynthesisOutcome.



(** X13.  An empty list, tuple or mapping is written as its two brackets
    under every setting: multiline settings do not spread it over lines,
    and an empty mapping at the top level keeps its braces. *)
Theorem empty_containers_keep_brackets {codec : Codec} (s : Settings)
    (k tlm : bool) :
  _to_tokens (VList []) s k tlm = OK [ListStart "["; ListEnd "]"]
  /\ _to_tokens (VTuple []) s k tlm = OK [ListStart "["; ListEnd "]"]
  /\ _to_tokens (VDict []) s k tlm = OK [MapStart "{"; MapEnd "}"].
Proof.
  rewrite !_to_tokens_eq. unfold _list_tokens, _map_tokens.
  rewrite !container_unfold. cbn. unfold renders_inline. cbn.
  rewrite orb_true_r. repeat split.
Qed.

(** ** A segment that cannot be located *)

Lemma get_locate_error (prefix rest : list pyval) (k : pyval)
    (root parent : item) (e : exn) :
  _get root prefix = OK parent ->
  _key_index (val parent) k = Error e ->
  _get root (prefix ++ k :: rest) = Error e.
Proof.
  intros Hget Hk. rewrite get_app_eq, Hget. cbn [bind _get].
  now rewrite Hk.
Qed.

Lemma modify_items_locate_error
    (items_cb : item -> pyval -> result (list item))
    (prefix rest : list pyval) (k : pyval) (root parent : item) (e : exn) :
  _get root prefix = OK parent ->
  _key_index (val parent) k = Error e ->
  _modify_items items_cb root (prefix ++ k :: rest) = Error e.
Proof.
  revert root; induction prefix as [| k0 more IH]; intros root Hget Hk.
  - injection Hget as ->. cbn [app _modify_items]. now rewrite Hk.
  - cbn [_get] in Hget. inv_bind Hget. rename x into i0.
    inv_bind Hget. rename x into items. inv_bind Hget. rename x into target.
    rewrite get_nil_or_rest in Hget.
    specialize (IH target Hget Hk).
    change ((k0 :: more) ++ k :: rest) with (k0 :: (more ++ k :: rest)).
    rewrite modify_items_cons by (now destruct more).
    rewrite Hx. cbn [bind]. rewrite Hx0. cbn [bind]. rewrite Hx1.
    cbn [bind]. now rewrite IH.
Qed.

(** X14.  When a chain resolves up to an item in which the next segment
    cannot be located (the item is a primitive, or a Map without that
    key), get, set, delete and re-key along any longer chain all raise
    that error of [_key_index], whatever follows the segment and whatever
    value is given. *)
Theorem unlocatable_segment_fails_every_operation {codec : Codec}
    (root parent : item) (prefix rest : list pyval) (k v : pyval) (e : exn) :
  _get root prefix = OK parent ->
  _key_index (val parent) k = Error e ->
  _get root (prefix ++ k :: rest) = Error e
  /\ _set root (prefix ++ k :: rest) v = Error e
  /\ _delete root (prefix ++ k :: rest) = Error e
  /\ _set_key root (prefix ++ k :: rest) v = Error e.
Proof.
  intros Hget Hk. split; [| split; [| split]].
  - exact (get_locate_error prefix rest k root parent e Hget Hk).
  - destruct (prefix ++ k :: rest) as [| k1 more] eqn:Hc;
      [now destruct prefix |].
    cbn [_set]. rewrite <- Hc.
    exact (modify_items_locate_error _ prefix rest k root parent e Hget Hk).
  - exact (modify_items_locate_error _ prefix rest k root parent e Hget Hk).
  - exact (modify_items_locate_error _ prefix rest k root parent e Hget Hk).
Qed.

Lemma unlocatable_segment_fails_every_operation_witness :
  _get nested_doc ([vstr "a"] ++ vstr "zzz" :: [vint 0]) = Error KeyNotFound
  /\ _set nested_doc ([vstr "a"] ++ vstr "zzz" :: [vint 0]) (vint 1)
     = Error KeyNotFound
  /\ _delete nested_doc ([vstr "a"] ++ vstr "zzz" :: [vint 0])
     = Error KeyNotFound
  /\ _set_key nested_doc ([vstr "a"] ++ vstr "zzz" :: [vint 0]) (vint 1)
     = Error KeyNotFound.
Proof.
  refine (unlocatable_segment_fails_every_operation (codec := sample_codec)
            nested_doc _ [vstr "a"] [vint 0] (vstr "zzz") (vint 1)
            KeyNotFound eq_refl eq_refl).
Defined.

(** ** Re-key, then look up by the new key *)

Lemma get_parent_child (prefix : list pyval) (k : pyval)
    (root parent : item) :
  _get root prefix = OK parent ->
  _get root (prefix ++ [k]) = _get parent [k].
Proof. intros H. now rewrite get_app_eq, H. Qed.

(** X15.  After a successful re-key the item is found under its new key,
    with the value it had: provided the new key equals itself (it is not a
    NaN) and no item before it in the parent has an equal key, [_get]
    along the chain ending in the new key returns the old item with its
    key replaced, and [python_value] there is what it was under the old
    key. *)
Theorem rekey_then_lookup {codec : Codec} (root root' : item)
    (prefix : list pyval) (k nk : pyval) :
  _set_key root (prefix ++ [k]) nk = OK root' ->
  exists parent c items j old p,
    _get root prefix = OK parent
    /\ val parent = Cont c items
    /\ locate (val parent) k = OK j
    /\ nth_error items j = Some old
    /\ _to_ast nk Settings_DEFAULT false = OK (Prim p)
    /\ (prim_eq_val (pval p) (VPrim (pval p)) = true ->
        (forall j', (j' < j)%nat ->
           exists it q,
             nth_error items j' = Some it /\ key it = Some q
             /\ prim_eq_val (pval q) (VPrim (pval p)) = false) ->
        _get root' (prefix ++ [VPrim (pval p)]) = OK (set_key old p)
        /\ project_at root' (prefix ++ [VPrim (pval p)])
           = project_at root (prefix ++ [k])).
Proof.
  unfold _set_key. intros H.
  destruct (modify_items_parent (_set_key_cb nk) prefix k root root' H)
    as (ps & parent & i & new_items & new_val & Hr & Hpar & Hi & Hcb & Hrep
        & ->).
  destruct (set_key_cb_primitive nk parent i new_items Hcb) as (p & Hp).
  destruct (set_key_cb_updates nk p Hp parent i new_items Hcb)
    as (c & items & j & old & Hv & Hj & Hold & ->).
  assert (Hc : ckind c = KMap).
  { unfold _set_key_cb in Hcb. rewrite Hv in Hcb.
    destruct (ckind c); [discriminate Hcb | reflexivity]. }
  rewrite Hv in Hrep. cbn [replace_items] in Hrep. injection Hrep as <-.
  assert (Hget : _get root prefix = OK parent).
  { rewrite get_resolve, Hr. cbn [bind]. now rewrite Hpar. }
  exists parent, c, items, j, old, p.
  split; [assumption |]. split; [assumption |]. split.
  { unfold locate. rewrite Hv in *. rewrite Hi. cbn [bind ast_items].
    assumption. }
  split; [assumption |]. split; [assumption |].
  intros Hrefl Hbefore.
  set (items' := list_set items j (set_key old p)) in *.
  assert (Hget' : _get (update_at (fun it => set_val it (Cont c items')) root
                          ps) prefix
                  = OK (set_val parent (Cont c items'))).
  { rewrite get_resolve.
    rewrite (resolve_update_at (fun it => set_val it (Cont c items'))
               (fun x => eq_refl) ps prefix root ps Hr
               (strictly_below_self ps)).
    cbn [bind].
    now rewrite (item_at_update_at_same
                   (fun it => set_val it (Cont c items')) ps root parent
                   Hpar). }
  assert (Hlt : (j < List.length items)%nat)
    by (eapply nth_error_lt; eassumption).
  assert (Hfind : find_key items' (VPrim (pval p)) 0 = OK (0 + Z.of_nat j)).
  { apply find_key_first_match. exists j. split; [reflexivity |]. split.
    - exists (set_key old p), p. unfold items'.
      rewrite nth_error_list_set_eq by assumption. repeat split.
      assumption.
    - intros j' Hj'. destruct (Hbefore j' Hj') as (it & q & Hit & Hq & Hne).
      exists it, q. unfold items'.
      rewrite nth_error_list_set_neq by lia. repeat split; assumption. }
  assert (Hnew : _get (update_at (fun it => set_val it (Cont c items')) root
                         ps) (prefix ++ [VPrim (pval p)])
                 = OK (set_key old p)).
  { rewrite (get_parent_child prefix _ _ _ Hget').
    cbn [_get val set_val _key_index]. rewrite Hc, Hfind.
    cbn [bind ast_items]. change (0 + Z.of_nat j) with (Z.of_nat j).
    fold (idx j).
    rewrite (getitem_idx items' j (set_key old p)); [reflexivity |].
    unfold items'. now apply nth_error_list_set_eq. }
  split; [exact Hnew |].
  unfold project_at. rewrite Hnew.
  rewrite (get_parent_child prefix k root parent Hget).
  cbn [_get]. rewrite Hi. cbn [bind]. rewrite Hv. cbn [bind ast_items].
  unfold getitem. rewrite Hj. cbn [bind]. rewrite Hold. reflexivity.
Qed.

Lemma rekey_then_lookup_witness :
  _set_key mixed_list_doc ([vint 1] ++ [vstr "a"]) (vstr "z")
  = OK mixed_list_rekeyed
  /\ exists parent c items j old p,
       _get mixed_list_doc [vint 1] = OK parent
       /\ val parent = Cont c items
       /\ locate (val parent) (vstr "a") = OK j
       /\ nth_error items j = Some old
       /\ _to_ast (vstr "z") Settings_DEFAULT false = OK (Prim p)
       /\ (prim_eq_val (pval p) (VPrim (pval p)) = true ->
           (forall j', (j' < j)%nat ->
              exists it q,
                nth_error items j' = Some it /\ key it = Some q
                /\ prim_eq_val (pval q) (VPrim (pval p)) = false) ->
           _get mixed_list_rekeyed ([vint 1] ++ [VPrim (pval p)])
           = OK (set_key old p)
           /\ project_at mixed_list_rekeyed ([vint 1] ++ [VPrim (pval p)])
              = project_at mixed_list_doc ([vint 1] ++ [vstr "a"])).
Proof.
  split; [reflexivity |].
  apply (rekey_then_lookup (codec := sample_codec) mixed_list_doc
           mixed_list_rekeyed [vint 1] (vstr "a") (vstr "z")).
  reflexivity.
Defined.

(** ** Sets at positions that part ways *)

Lemma list_set_commute {A : Type} (l : list A) (p q : nat) (x y : A) :
  p <> q ->
  list_set (list_set l p x) q y = list_set (list_set l q y) p x.
Proof.
  revert p q; induction l as [| a l IH]; intros [| p] [| q] H; cbn;
    try reflexivity; try congruence.
  rewrite IH by congruence. reflexivity.
Qed.

Lemma diverge_sym (ps qs : list nat) : diverge ps qs = diverge qs ps.
Proof.
  revert qs; induction ps as [| p ps IH]; intros [| q qs]; cbn;
    try reflexivity.
  rewrite (Nat.eqb_sym q p). destruct (p =? q)%nat; [apply IH | reflexivity].
Qed.

Lemma update_at_commute (f g : item -> item) (ps qs : list nat)
    (obj : item) :
  diverge ps qs = true ->
  update_at g (update_at f obj ps) qs = update_at f (update_at g obj qs) ps.
Proof.
  revert qs obj; induction ps as [| p ps IH]; intros [| q qs] obj Hd;
    try discriminate Hd.
  cbn [diverge] in Hd. cbn [update_at].
  destruct (val obj) as [x | c items] eqn:Hv; [now rewrite !Hv |].
  destruct (nth_error items p) as [tp |] eqn:Hp;
    destruct (nth_error items q) as [tq |] eqn:Hq;
    cbn [val set_val]; rewrite ?Hv; cbn [val set_val].
  - destruct (Nat.eqb_spec p q) as [<- | Hpq].
    + rewrite Hp in Hq. injection Hq as <-.
      rewrite !nth_error_list_set_eq by (eapply nth_error_lt; eassumption).
      rewrite !list_set_twice, (IH qs tp Hd). reflexivity.
    + rewrite !nth_error_list_set_neq by congruence.
      rewrite Hp, Hq. unfold set_val. cbn [head key inner tail].
      now rewrite (list_set_commute items p q) by assumption.
  - rewrite Hp.
    destruct (Nat.eqb_spec p q) as [<- | Hpq]; [congruence |].
    rewrite nth_error_list_set_neq by congruence. now rewrite Hq.
  - rewrite Hq.
    destruct (Nat.eqb_spec p q) as [<- | Hpq]; [congruence |].
    rewrite nth_error_list_set_neq by congruence. now rewrite Hp.
  - now rewrite Hp, Hq.
Qed.

(** X16.  Sets at two paths whose positions part ways commute: when both
    paths resolve and both values synthesize, setting one and then the
    other gives the same document in either order. *)
Theorem sets_commute_when_paths_part {codec : Codec} (root : item)
    (c1 c2 : list pyval) (v1 v2 : pyval) (ps1 ps2 : list nat) (a1 a2 : ast) :
  resolve root c1 = OK ps1 ->
  resolve root c2 = OK ps2 ->
  diverge ps1 ps2 = true ->
  _to_ast v1 Settings_DEFAULT false = OK a1 ->
  _to_ast v2 Settings_DEFAULT false = OK a2 ->
  exists final,
    (r1 <- _set root c1 v1 ;; _set r1 c2 v2) = OK final
    /\ (r2 <- _set root c2 v2 ;; _set r2 c1 v1) = OK final.
Proof.
  intros H1 H2 Hd Ha1 Ha2.
  assert (Hd' : diverge ps2 ps1 = true) by (now rewrite diverge_sym).
  exists (update_at (fun it => set_val it a2)
            (update_at (fun it => set_val it a1) root ps1) ps2).
  rewrite !set_equation, H1, H2, Ha1, Ha2. cbn [bind].
  rewrite !set_equation.
  rewrite (resolve_update_at (fun it => set_val it a1) (fun x => eq_refl)
             ps1 c2 root ps2 H2 (diverge_not_below ps1 ps2 Hd)).
  rewrite (resolve_update_at (fun it => set_val it a2) (fun x => eq_refl)
             ps2 c1 root ps1 H1 (diverge_not_below ps2 ps1 Hd')).
  rewrite Ha1, Ha2. cbn [bind]. split; [reflexivity |].
  f_equal. symmetry. now apply update_at_commute.
Qed.

Lemma sets_commute_when_paths_part_witness :
  exists final,
    (r1 <- _set nested_doc [vstr "a"; vstr "b"] (vint 9) ;;
     _set r1 [vstr "a"; vstr "c"] (vint 7)) = OK final
    /\ (r2 <- _set nested_doc [vstr "a"; vstr "c"] (vint 7) ;;
        _set r2 [vstr "a"; vstr "b"] (vint 9)) = OK final.
Proof.
  refine (sets_commute_when_paths_part (codec := sample_codec) nested_doc
            [vstr "a"; vstr "b"] [vstr "a"; vstr "c"] (vint 9) (vint 7)
            [0%nat; 0%nat] [0%nat; 1%nat] _ _
            eq_refl eq_refl eq_refl eq_refl eq_refl).
Defined.

(** ** Setting a native value *)

Lemma to_ast_default_native {codec : Codec} (v : pyval) :
  native v = true ->
  exists a,
    _to_ast v Settings_DEFAULT false = OK a
    /\ _python_value a = OK (plain v).
Proof.
  intros Hn.
  destruct (native_round_trips v Hn Settings_DEFAULT)
    as (toks & a & Ht & Hv & Hparse & Hproj).
  exists a. split; [| assumption].
  unfold _to_ast.
  assert (Ht' : _to_tokens v Settings_DEFAULT false false = OK toks)
    by exact Ht.
  rewrite Ht'. cbn [bind].
  now rewrite (parse_document_value toks a Hv Hparse).
Qed.

(** X17.  Setting a native value (atomic, pairwise distinct mapping keys)
    at a path that resolves always succeeds, and reading the path back
    gives the value, tuples read as lists.  The parser the edit runs on the
    synthesized tokens is the one modelled for the round trip. *)
Theorem set_native_value_reads_back {codec : Codec} (root : item)
    (chain : list pyval) (v : pyval) (ps : list nat) :
  resolve root chain = OK ps ->
  native v = true ->
  exists root',
    _set root chain v = OK root'
    /\ project_at root' chain = OK (plain v).
Proof.
  intros Hr Hn. destruct (to_ast_default_native v Hn) as (a & Ha & Hproj).
  exists (update_at (fun it => set_val it a) root ps).
  rewrite set_equation, Hr. cbn [bind]. rewrite Ha. cbn [bind].
  split; [reflexivity |].
  destruct (resolve_item_at chain root ps Hr) as (old & Hold).
  unfold project_at. rewrite get_resolve.
  rewrite (resolve_update_at (fun it => set_val it a) (fun x => eq_refl)
             ps chain root ps Hr (strictly_below_self ps)).
  cbn [bind].
  rewrite (item_at_update_at_same (fun it => set_val it a) ps root old Hold).
  exact Hproj.
Qed.

Lemma set_native_value_reads_back_witness :
  exists root',
    _set nested_doc [vstr "a"; vstr "b"] (VTuple [vint 1; vstr "two words"])
    = OK root'
    /\ project_at root' [vstr "a"; vstr "b"]
       = OK (plain (VTuple [vint 1; vstr "two words"])).
Proof.
  refine (set_native_value_reads_back (codec := sample_codec) nested_doc
            [vstr "a"; vstr "b"] (VTuple [vint 1; vstr "two words"])
            [0%nat; 0%nat] eq_refl eq_refl).
Defined.

(** ** Delete of an item on its own line *)

(** X18.  In a multiline container, deleting an item that sits on its own
    line (a non-empty head, a tail ending in a newline) applies no fix-up:
    the other items are exactly as they were, unless the container is the
    top-level mapping and the item its last one. *)
Theorem delete_own_line_item_changes_nothing_else (obj : item)
    (c : container) (items : list item) (i : nat) (orig : item) :
  val obj = Cont c items ->
  is_multiline c = true ->
  nth_error items i = Some orig ->
  head orig <> [] ->
  tail_ends_nl orig = OK true ->
  (is_top_level_style c = true -> list_del items i <> []) ->
  _delete_cb obj (idx i) = OK (list_del items i).
Proof.
  intros Hv Hml Horig Hhead Hnl Htop.
  pose proof (nth_error_lt _ _ _ Horig) as Hlt.
  assert (Hnil : is_nil (head orig) = false)
    by (destruct (head orig); [congruence | reflexivity]).
  assert (Hnot1 : is_top_level_style c && is_nil (list_del items i) = false).
  { destruct (is_top_level_style c); [| reflexivity].
    destruct (list_del items i); [now exfalso; apply Htop | reflexivity]. }
  unfold _delete_cb. rewrite Hv; cbn [bind ast_items node_flag].
  rewrite (getitem_idx _ _ _ Horig); cbn [bind].
  rewrite delitem_idx by assumption; cbn [bind as_index idx].
  rewrite Hnot1, Hml, Hnil, Hnl. cbn [negb andb bind].
  rewrite !andb_false_r. cbn [bind].
  destruct (Z.of_nat i + 1 <? Z.of_nat (List.length items)); reflexivity.
Qed.

Lemma delete_own_line_item_changes_nothing_else_witness :
  _delete_cb (doc_of (Cont multiline_brackets one_per_line)) (idx 1)
  = OK [list_item [Indent "    "] (int_node 1) [Comma ","; NL newline];
        list_item [Indent "    "] (int_node 3) [Comma ","; NL newline]].
Proof.
  apply (delete_own_line_item_changes_nothing_else
           (doc_of (Cont multiline_brackets one_per_line)) multiline_brackets
           one_per_line 1
           (list_item [Indent "    "] (int_node 2) [Comma ","; NL newline]));
    try reflexivity; discriminate.
Defined.

(** ** An index out of range, at any depth *)

(** X19.  When a chain resolves to a List of [n] items, a last segment
    that is an integer outside [[-n, n)] makes get, set and delete raise
    [IndexError], while re-key raises the not-a-map [TypeError] without
    looking at the index. *)
Theorem index_out_of_range_at_depth {codec : Codec} (root parent : item)
    (prefix : list pyval) (c : container) (items : list item) (z : Z)
    (v : pyval) :
  _get root prefix = OK parent ->
  val parent = Cont c items ->
  ckind c = KList ->
  z < - Z.of_nat (List.length items) \/ Z.of_nat (List.length items) <= z ->
  _get root (prefix ++ [VPrim (PInt z)]) = Error IndexOutOfRange
  /\ _set root (prefix ++ [VPrim (PInt z)]) v = Error IndexOutOfRange
  /\ _delete root (prefix ++ [VPrim (PInt z)]) = Error IndexOutOfRange
  /\ _set_key root (prefix ++ [VPrim (PInt z)]) v = Error NotAMap
  /\ exc_class IndexOutOfRange = IndexError.
Proof.
  intros Hget Hv Hc Hz.
  pose proof (position_outside (List.length items) z Hz) as Hpos.
  assert (Hitem : getitem items (VPrim (PInt z)) = Error IndexOutOfRange)
    by (unfold getitem; now rewrite Hpos).
  split; [| split; [| split; [| split; [| reflexivity]]]].
  - rewrite (get_parent_child prefix _ root parent Hget).
    cbn [_get]. rewrite Hv. cbn [_key_index]. rewrite Hc.
    cbn [bind ast_items]. now rewrite Hitem.
  - destruct (prefix ++ [VPrim (PInt z)]) as [| k1 more] eqn:Hchain;
      [now destruct prefix |].
    cbn [_set]. rewrite <- Hchain.
    apply modify_items_cb_error with (parent := parent); [assumption |].
    rewrite Hv. cbn [_key_index]. rewrite Hc. cbn [bind].
    unfold _set_cb. rewrite Hv. cbn [bind ast_items]. now rewrite Hitem.
  - apply modify_items_cb_error with (parent := parent); [assumption |].
    rewrite Hv. cbn [_key_index]. rewrite Hc. cbn [bind].
    unfold _delete_cb. rewrite Hv. cbn [bind ast_items]. now rewrite Hitem.
  - apply modify_items_cb_error with (parent := parent); [assumption |].
    rewrite Hv. cbn [_key_index]. rewrite Hc. cbn [bind].
    unfold _set_key_cb. now rewrite Hv, Hc.
Qed.

Lemma index_out_of_range_at_depth_witness :
  _get list_entry_doc ([vstr "a"] ++ [VPrim (PInt 2)]) = Error IndexOutOfRange
  /\ _set list_entry_doc ([vstr "a"] ++ [VPrim (PInt 2)]) (vint 0)
     = Error IndexOutOfRange
  /\ _delete list_entry_doc ([vstr "a"] ++ [VPrim (PInt 2)])
     = Error IndexOutOfRange
  /\ _set_key list_entry_doc ([vstr "a"] ++ [VPrim (PInt 2)]) (vint 0)
     = Error NotAMap
  /\ exc_class IndexOutOfRange = IndexError.
Proof.
  refine (index_out_of_range_at_depth (codec := sample_codec) list_entry_doc
            _ [vstr "a"] _ _ 2 (vint 0) eq_refl eq_refl eq_refl _).
  right. cbn. lia.
Defined.
